(** * sdk/src/utils.ts: logAndThrow, parseJSON, get, post

    A shallow embedding of the four helpers of the SDK's [utils.ts] and of
    the part of the JavaScript platform they call:

    - strings are sequences of UTF-16 code units ([list N]);
    - a Number is an IEEE 754 binary64 value ([spec_float], rounded by the
      Standard Library's [SpecFloat]); a BigInt is a [Z];
    - [JSON.parse] is the ECMAScript algorithm with the reviver's third
      argument (the [context] object carrying the [source] text of a
      primitive value); its acceptance of a text is a scanner and a parser,
      proved to recognise the JSON grammar of ECMA-404; the reviver walk
      is given both without a bound and on a call stack with room for a
      given number of activations, past which it throws a RangeError;
    - a configuration object is an ordinary object with read-only
      properties and an extensibility flag; an assignment in this
      strict-mode module throws a TypeError where it is refused;
    - [console.error], the heap of configuration objects and [fetch] are
      the components of an explicit [World], threaded by a state and
      exception monad. *)

From Stdlib Require Import ZArith NArith Bool List SpecFloat Ascii String Lia.
From Stdlib Require Import DecimalFacts DecimalN.
From stdpp Require Import base option list gmap.

Set Warnings "-register-all".

Open Scope N_scope.

(** ** Strings *)

(** A JavaScript string: its UTF-16 code units. *)
Abbreviation JSString := (list N).

(** The code units of an ASCII literal. *)
Fixpoint js (s : string) : JSString :=
  match s with
  | EmptyString => []
  | String c s' => N_of_ascii c :: js s'
  end.
Arguments js _ : simpl never.

Definition is_digit (c : N) : bool := (48 <=? c) && (c <=? 57).

(** [e] or [E]. *)
Definition is_exponent_mark (c : N) : bool := (c =? 101) || (c =? 69).

Definition hex_value (c : N) : option N :=
  if is_digit c then Some (c - 48)
  else if (97 <=? c) && (c <=? 102) then Some (c - 87)
  else if (65 <=? c) && (c <=? 70) then Some (c - 55)
  else None.

(** Value of a run of digits in the given radix; [None] on an empty run or
    on a character that is no digit of the radix. *)
Definition digits_in (radix : N) (ds : JSString) : option N :=
  match ds with
  | [] => None
  | _ =>
      fold_left
        (fun acc c =>
           match acc, hex_value c with
           | Some a, Some d => if d <? radix then Some (a * radix + d) else None
           | _, _ => None
           end)
        ds (Some 0)
  end.

(** ToString of a non-negative integer: its decimal digits. *)
Fixpoint uint_digits (d : Decimal.uint) : JSString :=
  match d with
  | Decimal.Nil => []
  | Decimal.D0 d => 48 :: uint_digits d
  | Decimal.D1 d => 49 :: uint_digits d
  | Decimal.D2 d => 50 :: uint_digits d
  | Decimal.D3 d => 51 :: uint_digits d
  | Decimal.D4 d => 52 :: uint_digits d
  | Decimal.D5 d => 53 :: uint_digits d
  | Decimal.D6 d => 54 :: uint_digits d
  | Decimal.D7 d => 55 :: uint_digits d
  | Decimal.D8 d => 56 :: uint_digits d
  | Decimal.D9 d => 57 :: uint_digits d
  end.

Definition ToString_N (n : N) : JSString := uint_digits (N.to_uint n).
Arguments ToString_N _ : simpl never.

(** [sub] occurs in [s]. *)
Definition contains (sub s : JSString) : Prop :=
  exists before after, s = before ++ sub ++ after.

(** ** Numbers *)

(** The Number type: IEEE 754 binary64. *)
Abbreviation Number := spec_float.

(** The Number value of [(-1)^neg * digits * 10^e10]: the binary64 value
    nearest to it, ties to even (ECMA-262, 6.1.6.1). *)
Definition decimal_to_Number (neg : bool) (digits : N) (e10 : Z) : Number :=
  match digits with
  | N0 => S754_zero neg
  | Npos m =>
      if (0 <=? e10)%Z
      then binary_normalize 53 1024 (cond_Zopp neg (Zpos m * 10 ^ e10)) 0 neg
      else SFdiv 53 1024 (S754_finite neg m 0)
                 (S754_finite false (Z.to_pos (10 ^ (- e10))) 0)
  end.

(** [s] cut at its first code unit satisfying [p]: what is before it, and
    what is after it when there is one. *)
Fixpoint cut_at (p : N -> bool) (s : JSString) : JSString * option JSString :=
  match s with
  | [] => ([], None)
  | c :: rest =>
      if p c then ([], Some rest)
      else let '(before, after) := cut_at p rest in (c :: before, after)
  end.

(** Value of the digits after an exponent mark, with their optional sign. *)
Definition exponent_value (s : JSString) : Z :=
  match s with
  | 45 :: ds => - Z.of_N (default 0 (digits_in 10 ds))
  | 43 :: ds => Z.of_N (default 0 (digits_in 10 ds))
  | ds => Z.of_N (default 0 (digits_in 10 ds))
  end.

(** The Number denoted by the text of a JSON number literal
    [-? int (. frac)? ((e|E) (+|-)? exp)?]. *)
Definition JSONNumber_value (src : JSString) : Number :=
  let '(neg, body) := match src with 45 :: r => (true, r) | _ => (false, src) end in
  let '(mantissa, exp) := cut_at is_exponent_mark body in
  let '(int, frac) := cut_at (N.eqb 46) mantissa in
  let frac := default [] frac in
  let e10 := (from_option exponent_value 0 exp - Z.of_nat (length frac))%Z in
  decimal_to_Number neg (default 0 (digits_in 10 (int ++ frac))) e10.

(** The mathematical value of a finite Number is an integer. *)
Definition integral (x : Number) : bool :=
  match x with
  | S754_zero _ => true
  | S754_finite _ m e =>
      if (0 <=? e)%Z then true else (Zpos m mod 2 ^ (- e) =? 0)%Z
  | S754_infinity _ | S754_nan => false
  end.

(** ** Values, exceptions and completions *)

(** Primitive values a JSON text denotes. *)
Inductive Primitive :=
| PNull
| PBool (b : bool)
| PNumber (x : Number)
| PString (s : JSString).

(** The values [parseJSON] handles. The properties of an object are listed
    in property order: integer-index keys in ascending order, then the
    other keys in creation order. An array hole reads as [JUndefined]. *)
Inductive JSValue :=
| JUndefined
| JNull
| JBool (b : bool)
| JNumber (x : Number)
| JBigInt (z : Z)
| JString (s : JSString)
| JArray (elements : list JSValue)
| JObject (properties : list (JSString * JSValue)).

Definition prim (p : Primitive) : JSValue :=
  match p with
  | PNull => JNull
  | PBool b => JBool b
  | PNumber x => JNumber x
  | PString s => JString s
  end.

(** What a [throw] carries. The messages of the platform's own SyntaxError,
    TypeError and RangeError are implementation-defined and are not
    modelled; [Rejection] is any other value the transport rejects with. *)
Inductive Exception :=
| Error (message : JSString)
| SyntaxError
| TypeError
| RangeError
| Rejection (reason : JSString).

(** How an evaluation completes. *)
Inductive Outcome (A : Type) :=
| Returned (a : A)
| Thrown (e : Exception).
Arguments Returned {A} a.
Arguments Thrown {A} e.

Definition obind {A B} (o : Outcome A) (f : A -> Outcome B) : Outcome B :=
  match o with
  | Returned a => f a
  | Thrown e => Thrown e
  end.

(** ** JSON text: the scanner *)

Inductive Token :=
| TBeginArray
| TEndArray
| TBeginObject
| TEndObject
| TColon
| TComma
| TLiteral (source : JSString) (value : Primitive).

(** Where the scanner stands inside a number literal. *)
Inductive NumPhase :=
| NpMinus      (* after the sign: a digit must follow *)
| NpZero       (* after a leading 0 *)
| NpInt        (* in the digits of the integer part *)
| NpPoint      (* after the point: a digit must follow *)
| NpFrac       (* in the digits of the fraction *)
| NpMark       (* after e or E: a sign or a digit must follow *)
| NpSign       (* after the exponent's sign: a digit must follow *)
| NpExp.       (* in the digits of the exponent *)

Definition num_complete (p : NumPhase) : bool :=
  match p with
  | NpZero | NpInt | NpFrac | NpExp => true
  | NpMinus | NpPoint | NpMark | NpSign => false
  end.

Definition num_next (p : NumPhase) (c : N) : option NumPhase :=
  match p with
  | NpMinus =>
      if c =? 48 then Some NpZero else if is_digit c then Some NpInt else None
  | NpZero =>
      if c =? 46 then Some NpPoint
      else if is_exponent_mark c then Some NpMark else None
  | NpInt =>
      if is_digit c then Some NpInt
      else if c =? 46 then Some NpPoint
      else if is_exponent_mark c then Some NpMark else None
  | NpPoint => if is_digit c then Some NpFrac else None
  | NpFrac =>
      if is_digit c then Some NpFrac
      else if is_exponent_mark c then Some NpMark else None
  | NpMark =>
      if is_digit c then Some NpExp
      else if (c =? 43) || (c =? 45) then Some NpSign else None
  | NpSign => if is_digit c then Some NpExp else None
  | NpExp => if is_digit c then Some NpExp else None
  end.

(** The scanner's state. [raw] and [val] are accumulated in reverse. *)
Inductive LexMode :=
| Between
| InWord (expected : JSString) (tok : Token)
| InString (raw val : JSString)
| InEscape (raw val : JSString)
| InHex (raw val : JSString) (remaining : nat) (acc : N)
| InNumber (phase : NumPhase) (raw : JSString).

Definition number_token (raw : JSString) : Token :=
  let src := rev raw in TLiteral src (PNumber (JSONNumber_value src)).

(** JSON whitespace: tab, line feed, carriage return, space. *)
Definition is_ws (c : N) : bool :=
  (c =? 9) || (c =? 10) || (c =? 13) || (c =? 32).

(** The six structural tokens. *)
Definition structural (c : N) : option Token :=
  if c =? 91 then Some TBeginArray
  else if c =? 93 then Some TEndArray
  else if c =? 123 then Some TBeginObject
  else if c =? 125 then Some TEndObject
  else if c =? 58 then Some TColon
  else if c =? 44 then Some TComma
  else None.

(** The code unit a single-character escape stands for. *)
Definition escape_value (c : N) : option N :=
  match c with
  | 34 => Some 34    (* quotation mark *)
  | 47 => Some 47    (* solidus *)
  | 92 => Some 92    (* reverse solidus *)
  | 98 => Some 8     (* b: backspace *)
  | 102 => Some 12   (* f: form feed *)
  | 110 => Some 10   (* n: line feed *)
  | 114 => Some 13   (* r: carriage return *)
  | 116 => Some 9    (* t: tab *)
  | _ => None
  end.

(** A code unit met between two tokens. *)
Definition lex_start (c : N) : option (LexMode * list Token) :=
  if is_ws c then Some (Between, [])
  else match structural c with
  | Some t => Some (Between, [t])
  | None =>
      if c =? 34 then Some (InString [34] [], [])
      else if c =? 45 then Some (InNumber NpMinus [45], [])
      else if c =? 48 then Some (InNumber NpZero [48], [])
      else if is_digit c then Some (InNumber NpInt [c], [])
      else if c =? 110
      then Some (InWord (js "ull") (TLiteral (js "null") PNull), [])
      else if c =? 116
      then Some (InWord (js "rue") (TLiteral (js "true") (PBool true)), [])
      else if c =? 102
      then Some (InWord (js "alse") (TLiteral (js "false") (PBool false)), [])
      else None
  end.

Definition lex_step (m : LexMode) (c : N) : option (LexMode * list Token) :=
  match m with
  | Between => lex_start c
  | InWord [] _ => None
  | InWord (e :: rest) tok =>
      if c =? e
      then match rest with
           | [] => Some (Between, [tok])
           | _ => Some (InWord rest tok, [])
           end
      else None
  | InString raw val =>
      if c =? 34
      then Some (Between, [TLiteral (rev (c :: raw)) (PString (rev val))])
      else if c =? 92 then Some (InEscape (c :: raw) val, [])
      else if c <? 32 then None
      else Some (InString (c :: raw) (c :: val), [])
  | InEscape raw val =>
      if c =? 117 then Some (InHex (c :: raw) val 4 0, [])
      else match escape_value c with
           | Some v => Some (InString (c :: raw) (v :: val), [])
           | None => None
           end
  | InHex raw val remaining acc =>
      match hex_value c, remaining with
      | Some h, S O => Some (InString (c :: raw) ((acc * 16 + h) :: val), [])
      | Some h, S n => Some (InHex (c :: raw) val n (acc * 16 + h), [])
      | _, _ => None
      end
  | InNumber p raw =>
      match num_next p c with
      | Some p' => Some (InNumber p' (c :: raw), [])
      | None =>
          if num_complete p
          then match lex_start c with
               | Some (m', toks) => Some (m', number_token raw :: toks)
               | None => None
               end
          else None
      end
  end.

(** What the end of the text leaves of the current token. *)
Definition lex_end (m : LexMode) : option (list Token) :=
  match m with
  | Between => Some []
  | InNumber p raw => if num_complete p then Some [number_token raw] else None
  | _ => None
  end.

Fixpoint lex (m : LexMode) (text : JSString) : option (list Token) :=
  match text with
  | [] => lex_end m
  | c :: rest =>
      match lex_step m c with
      | Some (m', toks) =>
          match lex m' rest with
          | Some more => Some (toks ++ more)
          | None => None
          end
      | None => None
      end
  end.

(** ** JSON text: the parser *)

(** The JSON Parse Record of a value: the value together with, for a
    primitive, the source text it was parsed from. An object has one entry
    per property, in property order; of several members with one name the
    last one is the property's. *)
Inductive ParseRecord :=
| PRPrimitive (source : JSString) (value : Primitive)
| PRArray (elements : list ParseRecord)
| PRObject (entries : list (JSString * ParseRecord)).

(** The integer index a property key denotes, when it is the canonical
    numeral of an integer below 2^32 - 1. *)
Definition array_index (k : JSString) : option N :=
  match digits_in 10 k with
  | Some n =>
      if bool_decide (k = ToString_N n) && (n <? 2 ^ 32 - 1) then Some n else None
  | None => None
  end.

Definition has_key {A} (k : JSString) (props : list (JSString * A)) : bool :=
  existsb (fun p => bool_decide (fst p = k)) props.

(** Overwrites the value of the property [k], which keeps its place. *)
Fixpoint set_value {A} (k : JSString) (v : A) (props : list (JSString * A))
  : list (JSString * A) :=
  match props with
  | [] => []
  | (k', v') :: rest =>
      if bool_decide (k' = k) then (k, v) :: rest
      else (k', v') :: set_value k v rest
  end.

(** Adds an integer-index key before the first key that is a greater index
    or no index. *)
Fixpoint add_index {A} (i : N) (k : JSString) (v : A) (props : list (JSString * A))
  : list (JSString * A) :=
  match props with
  | [] => [(k, v)]
  | (k', v') :: rest =>
      match array_index k' with
      | Some j => if i <? j then (k, v) :: props else (k', v') :: add_index i k v rest
      | None => (k, v) :: props
      end
  end.

(** CreateDataProperty on an ordinary object. *)
Definition CreateDataProperty {A} (k : JSString) (v : A) (props : list (JSString * A))
  : list (JSString * A) :=
  if has_key k props then set_value k v props
  else match array_index k with
       | Some i => add_index i k v props
       | None => props ++ [(k, v)]
       end.

(** An array or object whose closing bracket has not been read. *)
Inductive Frame :=
| FArray (done : list ParseRecord)                       (* newest first *)
| FObject (done : list (JSString * ParseRecord)) (key : option JSString).

(** What the parser may read next. *)
Inductive Expect :=
| EValue        (* a value *)
| EValueOrEnd   (* after [: a value or ] *)
| EKeyOrEnd     (* after {: a member name or } *)
| EKey          (* after a comma in an object: a member name *)
| EColon        (* after a member name *)
| ESeparator    (* after a value inside an array or object: a comma or the end *)
| EDone (r : ParseRecord).  (* the whole value has been read *)

(** A complete value goes to the innermost open array or object; with none
    open it is the value of the text. *)
Definition reduce (r : ParseRecord) (stack : list Frame) : option (Expect * list Frame) :=
  match stack with
  | [] => Some (EDone r, [])
  | FArray done :: below => Some (ESeparator, FArray (r :: done) :: below)
  | FObject done (Some k) :: below =>
      Some (ESeparator, FObject (CreateDataProperty k r done) None :: below)
  | FObject _ None :: _ => None
  end.

Definition parse_step (st : Expect * list Frame) (t : Token)
  : option (Expect * list Frame) :=
  let '(e, stack) := st in
  match e, t, stack with
  | (EValue | EValueOrEnd), TLiteral src p, _ => reduce (PRPrimitive src p) stack
  | (EValue | EValueOrEnd), TBeginArray, _ => Some (EValueOrEnd, FArray [] :: stack)
  | (EValue | EValueOrEnd), TBeginObject, _ => Some (EKeyOrEnd, FObject [] None :: stack)
  | (EValueOrEnd | ESeparator), TEndArray, FArray done :: below =>
      reduce (PRArray (rev done)) below
  | (EKeyOrEnd | ESeparator), TEndObject, FObject done None :: below =>
      reduce (PRObject done) below
  | (EKeyOrEnd | EKey), TLiteral _ (PString k), FObject done None :: below =>
      Some (EColon, FObject done (Some k) :: below)
  | EColon, TColon, _ => Some (EValue, stack)
  | ESeparator, TComma, FArray _ :: _ => Some (EValue, stack)
  | ESeparator, TComma, FObject _ None :: _ => Some (EKey, stack)
  | _, _, _ => None
  end.

Fixpoint parse_tokens (st : Expect * list Frame) (toks : list Token)
  : option ParseRecord :=
  match toks with
  | [] => match st with
          | (EDone r, []) => Some r
          | _ => None
          end
  | t :: rest =>
      match parse_step st t with
      | Some st' => parse_tokens st' rest
      | None => None
      end
  end.

(** ParseJSON: the parse record of a JSON text, [None] for any other text. *)
Definition ParseJSON (text : JSString) : option ParseRecord :=
  match lex Between text with
  | Some toks => parse_tokens (EValue, []) toks
  | None => None
  end.

(** The value a parse record stands for: what [JSON.parse] builds before
    any reviver runs. *)
Fixpoint record_value (r : ParseRecord) : JSValue :=
  match r with
  | PRPrimitive _ p => prim p
  | PRArray elements => JArray (map record_value elements)
  | PRObject entries =>
      JObject (map (fun e => (fst e, record_value (snd e))) entries)
  end.

(** ** The JSON grammar (ECMA-404)

    A JSON text is a sequence of tokens that conforms to the value grammar.
    The tokens are the six structural tokens, strings, numbers and the
    three literal names; whitespace is allowed before and after any token.
    [ParseJSON] is proved below to accept exactly the texts of this grammar
    ([ParseJSON_correct]). *)

(** Insignificant whitespace. *)
Definition Whitespace (w : JSString) : Prop := forallb is_ws w = true.

(** One or more decimal digits. *)
Definition Digits (ds : JSString) : Prop := ds <> [] /\ forallb is_digit ds = true.

(** [P], or nothing. *)
Inductive Optional (P : JSString -> Prop) : JSString -> Prop :=
| absent : Optional P []
| present s : P s -> Optional P s.

(** [0], or a digit other than [0] followed by digits. *)
Inductive IntegerPart : JSString -> Prop :=
| int_zero : IntegerPart [48]
| int_digits d ds :
    is_digit d = true -> d <> 48 -> forallb is_digit ds = true -> IntegerPart (d :: ds).

(** A point followed by digits. *)
Inductive Fraction : JSString -> Prop :=
| fraction ds : Digits ds -> Fraction (46 :: ds).

Inductive Sign : JSString -> Prop :=
| sign_plus : Sign [43]
| sign_minus : Sign [45].

(** [e] or [E], an optional sign, digits. *)
Inductive Exponent : JSString -> Prop :=
| exponent m sg ds :
    is_exponent_mark m = true -> Optional Sign sg -> Digits ds -> Exponent (m :: sg ++ ds).

Inductive NumberLiteral : JSString -> Prop :=
| number_literal sg int fr ex :
    Optional (eq [45]) sg -> IntegerPart int -> Optional Fraction fr ->
    Optional Exponent ex -> NumberLiteral (sg ++ int ++ fr ++ ex).

(** The characters between the quotes of a string literal, and the code
    units they denote. *)
Inductive StringCharacters : JSString -> JSString -> Prop :=
| chars_nil : StringCharacters [] []
| chars_plain c raw val :
    c <> 34 -> c <> 92 -> 32 <= c ->
    StringCharacters raw val -> StringCharacters (c :: raw) (c :: val)
| chars_escape c v raw val :
    escape_value c = Some v ->
    StringCharacters raw val -> StringCharacters (92 :: c :: raw) (v :: val)
| chars_unicode h1 h2 h3 h4 d1 d2 d3 d4 raw val :
    hex_value h1 = Some d1 -> hex_value h2 = Some d2 ->
    hex_value h3 = Some d3 -> hex_value h4 = Some d4 ->
    StringCharacters raw val ->
    StringCharacters (92 :: 117 :: h1 :: h2 :: h3 :: h4 :: raw)
                     ((((d1 * 16 + d2) * 16 + d3) * 16 + d4) :: val).

Inductive StringLiteral : JSString -> JSString -> Prop :=
| string_literal raw val :
    StringCharacters raw val -> StringLiteral (34 :: raw ++ [34]) val.

(** The text of a token. *)
Inductive Spells : Token -> JSString -> Prop :=
| spells_structural c t : structural c = Some t -> Spells t [c]
| spells_null : Spells (TLiteral (js "null") PNull) (js "null")
| spells_true : Spells (TLiteral (js "true") (PBool true)) (js "true")
| spells_false : Spells (TLiteral (js "false") (PBool false)) (js "false")
| spells_number src :
    NumberLiteral src -> Spells (TLiteral src (PNumber (JSONNumber_value src))) src
| spells_string src val :
    StringLiteral src val -> Spells (TLiteral src (PString val)) src.

(** A text is a sequence of tokens, with whitespace allowed before and
    after each. *)
Inductive Spelled : list Token -> JSString -> Prop :=
| spelled_end w : Whitespace w -> Spelled [] w
| spelled_token w t s toks rest :
    Whitespace w -> Spells t s -> Spelled toks rest ->
    Spelled (t :: toks) (w ++ s ++ rest).

(** The properties of an object whose members are [ms], in source order. *)
Definition properties_of (ms : list (JSString * ParseRecord))
  : list (JSString * ParseRecord) :=
  fold_left (fun props m => CreateDataProperty (fst m) (snd m) props) ms [].

(** The JSON value grammar over tokens, with the parse record of the value. *)
Inductive ValueTokens : list Token -> ParseRecord -> Prop :=
| value_literal src p : ValueTokens [TLiteral src p] (PRPrimitive src p)
| value_empty_array : ValueTokens [TBeginArray; TEndArray] (PRArray [])
| value_array first r more rs :
    ValueTokens first r -> MoreElements more rs ->
    ValueTokens (TBeginArray :: first ++ more ++ [TEndArray]) (PRArray (r :: rs))
| value_empty_object : ValueTokens [TBeginObject; TEndObject] (PRObject [])
| value_object first m more ms :
    MemberTokens first m -> MoreMembers more ms ->
    ValueTokens (TBeginObject :: first ++ more ++ [TEndObject])
                (PRObject (properties_of (m :: ms)))
with MoreElements : list Token -> list ParseRecord -> Prop :=
| elements_end : MoreElements [] []
| elements_more toks r more rs :
    ValueTokens toks r -> MoreElements more rs ->
    MoreElements (TComma :: toks ++ more) (r :: rs)
with MemberTokens : list Token -> JSString * ParseRecord -> Prop :=
| member src k toks r :
    ValueTokens toks r ->
    MemberTokens (TLiteral src (PString k) :: TColon :: toks) (k, r)
with MoreMembers : list Token -> list (JSString * ParseRecord) -> Prop :=
| members_end : MoreMembers [] []
| members_more toks m more ms :
    MemberTokens toks m -> MoreMembers more ms ->
    MoreMembers (TComma :: toks ++ more) (m :: ms).

(** [text] is a JSON text whose value has the parse record [r]: a sequence
    of tokens that conforms to the value grammar. *)
Definition JSONText (text : JSString) (r : ParseRecord) : Prop :=
  exists toks, Spelled toks text /\ ValueTokens toks r.

(** [text] is well-formed JSON. *)
Definition well_formed (text : JSString) : Prop := exists r, JSONText text r.

(** ** JSON.parse with a reviver *)

#[global] Instance Outcome_ret : MRet Outcome := fun _ a => Returned a.
#[global] Instance Outcome_bind : MBind Outcome := fun _ _ f o => obind o f.

(** The reviver's third argument: [source] is present exactly for a
    primitive value. *)
Record Context := { source : option JSString }.

(** A reviver that reads its arguments only (the holder [this] is not
    passed): it returns the value to store, or throws. *)
Definition Reviver : Type := JSString -> JSValue -> Context -> Outcome JSValue.

(** InternalizeJSONProperty: the elements of an array and the properties of
    an object are revived first, each under its index or key, then the
    value itself. A property revived to [undefined] is deleted. *)
Fixpoint InternalizeJSONProperty (reviver : Reviver) (name : JSString) (r : ParseRecord)
  : Outcome JSValue :=
  match r with
  | PRPrimitive src p => reviver name (prim p) {| source := Some src |}
  | PRArray elements =>
      let fix each (i : N) (rs : list ParseRecord) : Outcome (list JSValue) :=
        match rs with
        | [] => Returned []
        | r :: rest =>
            v ← InternalizeJSONProperty reviver (ToString_N i) r;
            vs ← each (i + 1) rest;
            Returned (v :: vs)
        end in
      vs ← each 0 elements;
      reviver name (JArray vs) {| source := None |}
  | PRObject entries =>
      let fix each (es : list (JSString * ParseRecord))
        : Outcome (list (JSString * JSValue)) :=
        match es with
        | [] => Returned []
        | (k, r) :: rest =>
            v ← InternalizeJSONProperty reviver k r;
            ps ← each rest;
            Returned (match v with JUndefined => ps | _ => (k, v) :: ps end)
        end in
      ps ← each entries;
      reviver name (JObject ps) {| source := None |}
  end.

(** [JSON.parse(text)] and [JSON.parse(text, reviver)]. *)
Definition JSON_parse (text : JSString) (reviver : option Reviver) : Outcome JSValue :=
  match ParseJSON text with
  | None => Thrown SyntaxError
  | Some r =>
      match reviver with
      | Some f => InternalizeJSONProperty f [] r
      | None => Returned (record_value r)
      end
  end.

(** [Number.isInteger]. *)
Definition Number_isInteger (v : JSValue) : bool :=
  match v with
  | JNumber x => integral x
  | _ => false
  end.

(** WhiteSpace and LineTerminator code units, which StringToBigInt trims. *)
Definition is_StrWhiteSpaceChar (c : N) : bool :=
  match c with
  | 9 | 10 | 11 | 12 | 13 | 32 | 160 | 5760 | 8232 | 8233 | 8239 | 8287
  | 12288 | 65279 => true
  | _ => (8192 <=? c) && (c <=? 8202)
  end.

Fixpoint drop_while (p : N -> bool) (s : JSString) : JSString :=
  match s with
  | c :: rest => if p c then drop_while p rest else s
  | [] => []
  end.

Definition trim (s : JSString) : JSString :=
  rev (drop_while is_StrWhiteSpaceChar (rev (drop_while is_StrWhiteSpaceChar s))).

(** StringToBigInt: the StringIntegerLiteral grammar. *)
Definition StringToBigInt (s : JSString) : option Z :=
  match trim s with
  | [] => Some 0%Z
  | 48 :: (120 | 88) :: ds => Z.of_N <$> digits_in 16 ds
  | 48 :: (111 | 79) :: ds => Z.of_N <$> digits_in 8 ds
  | 48 :: (98 | 66) :: ds => Z.of_N <$> digits_in 2 ds
  | 43 :: ds => Z.of_N <$> digits_in 10 ds
  | 45 :: ds => (fun n => (- Z.of_N n)%Z) <$> digits_in 10 ds
  | ds => Z.of_N <$> digits_in 10 ds
  end.

(** [BigInt(v)] for [v] a string or [undefined]. *)
Definition BigInt (v : option JSString) : Outcome JSValue :=
  match v with
  | None => Thrown TypeError
  | Some s =>
      match StringToBigInt s with
      | Some z => Returned (JBigInt z)
      | None => Thrown SyntaxError
      end
  end.

(** ** parseJSON *)

Definition revive (key : JSString) (value : JSValue) (context : Context)
  : Outcome JSValue :=
  if Number_isInteger value
  then BigInt (source context)
  else Returned value.

Definition parseJSON (json : JSString) : Outcome JSValue :=
  JSON_parse json (Some revive).

(** *** A finite call stack

    InternalizeJSONProperty calls itself once per level of nesting, and an
    engine's call stack is finite: when it runs out the engine throws a
    RangeError. [stack] is the number of nested activations of the walk the
    stack has room for when [JSON.parse] is called; [JSON_parse] and
    [parseJSON] above are the call when it does not run out. Building the
    parse record itself takes no stack in proportion to the nesting. *)
Fixpoint InternalizeJSONProperty_within (stack : nat) (reviver : Reviver)
    (name : JSString) (r : ParseRecord) : Outcome JSValue :=
  match stack with
  | O => Thrown RangeError
  | S room =>
      match r with
      | PRPrimitive src p => reviver name (prim p) {| source := Some src |}
      | PRArray elements =>
          let fix each (i : N) (rs : list ParseRecord) : Outcome (list JSValue) :=
            match rs with
            | [] => Returned []
            | r :: rest =>
                v ← InternalizeJSONProperty_within room reviver (ToString_N i) r;
                vs ← each (i + 1) rest;
                Returned (v :: vs)
            end in
          vs ← each 0 elements;
          reviver name (JArray vs) {| source := None |}
      | PRObject entries =>
          let fix each (es : list (JSString * ParseRecord))
            : Outcome (list (JSString * JSValue)) :=
            match es with
            | [] => Returned []
            | (k, r) :: rest =>
                v ← InternalizeJSONProperty_within room reviver k r;
                ps ← each rest;
                Returned (match v with JUndefined => ps | _ => (k, v) :: ps end)
            end in
          ps ← each entries;
          reviver name (JObject ps) {| source := None |}
      end
  end.

(** [JSON.parse(text, reviver)] with room for [stack] activations. *)
Definition JSON_parse_within (stack : nat) (text : JSString) (reviver : Reviver)
  : Outcome JSValue :=
  match ParseJSON text with
  | None => Thrown SyntaxError
  | Some r => InternalizeJSONProperty_within stack reviver [] r
  end.

(** [parseJSON(json)] with room for [stack] activations. *)
Definition parseJSON_within (stack : nat) (json : JSString) : Outcome JSValue :=
  JSON_parse_within stack json revive.

(** ** The world of the effectful helpers *)

(** An object reference. *)
Abbreviation loc := positive.

(** A configuration object ([RequestInit]): an ordinary object. [fields]
    are its properties as they are read; [readonly] names the properties on
    which an assignment is refused (a data property that is not writable, an
    accessor without a setter); [extensible] tells whether a property can be
    added. [Object.freeze] makes every property read-only and the object
    non-extensible. Properties with a setter and exotic objects, which run
    code of the caller on an assignment, are not modelled. *)
Record RequestInit := {
  fields : gmap JSString JSValue;
  readonly : gset JSString;
  extensible : bool
}.

(** OrdinarySet in strict-mode code succeeds on [o]: the property is not
    read-only, and it exists or can be added. *)
Definition assignable (name : JSString) (o : RequestInit) : bool :=
  bool_decide (name ∉ readonly o)
  && (extensible o || bool_decide (is_Some (fields o !! name))).

(** [o] after a successful [o.name = v]. *)
Definition assign (name : JSString) (v : JSValue) (o : RequestInit) : RequestInit :=
  {| fields := <[name := v]> (fields o); readonly := readonly o;
     extensible := extensible o |}.

(** The first argument of [get] and [post]: a string, or a [URL] object,
    whose string conversion is its [href]. *)
Inductive URLOrString :=
| AsString (s : JSString)
| AsURL (href : JSString).

Definition ToString_url (url : URLOrString) : JSString :=
  match url with
  | AsString s => s
  | AsURL href => href
  end.

(** What [fetch] resolves with. *)
Record Response := {
  status : N;
  statusText : JSString;
  body : JSString
}.

(** The [ok] getter (Fetch Standard): the status is in the range 200-299. *)
Definition ok (r : Response) : bool := (200 <=? status r) && (status r <=? 299).

(** One invocation of the transport: the address, and the configuration
    object as it stood when the transport read it. *)
Definition Request : Type := URLOrString * option RequestInit.

(** The return type [never]. *)
Abbreviation never := Empty_set.

Section Platform.

(** The transport behind [fetch] is an external collaborator: [Net] is its
    state, and [transport] answers a request with a response or a rejection
    and moves to a new state. It reads the configuration and never writes
    to it. *)
Variable Net : Type.
Variable transport : URLOrString -> option RequestInit -> Net -> Outcome Response * Net.

Record World := {
  console : list JSString;       (* the messages written by console.error *)
  heap : gmap loc RequestInit;   (* the configuration objects callers hold *)
  net : Net;
  sent : list Request            (* the invocations of the transport so far *)
}.

(** Computations that write to the world and may throw. An [await] is the
    sequencing of this monad: the awaited promise's fulfilment value is
    bound, its rejection is thrown. *)
Definition JS (A : Type) : Type := World -> Outcome A * World.

#[global] Instance JS_ret : MRet JS := fun _ a w => (Returned a, w).
#[global] Instance JS_bind : MBind JS := fun _ _ f m w =>
  match m w with
  | (Returned a, w') => f a w'
  | (Thrown e, w') => (Thrown e, w')
  end.

Definition throw {A} (e : Exception) : JS A := fun w => (Thrown e, w).

(** [console.error(message)] with a single string argument. *)
Definition console_error (message : JSString) : JS unit := fun w =>
  (Returned tt,
   {| console := console w ++ [message]; heap := heap w; net := net w; sent := sent w |}).

(** [o.name = v] in strict-mode code (a module is strict): a TypeError
    when the assignment is refused, and when [o] is no object (a reference
    that is not in the heap stands for [undefined] or [null]). *)
Definition set_property (o : loc) (name : JSString) (v : JSValue) : JS unit := fun w =>
  match heap w !! o with
  | Some object =>
      if assignable name object
      then (Returned tt,
            {| console := console w; heap := <[o := assign name v object]> (heap w);
               net := net w; sent := sent w |})
      else (Thrown TypeError, w)
  | None => (Thrown TypeError, w)
  end.

(** The configuration the transport reads for [init]. *)
Definition config_at (init : option loc) (w : World) : option RequestInit :=
  init ≫= (fun o => heap w !! o).

(** [fetch(input, init)], awaited. *)
Definition fetch (input : URLOrString) (init : option loc) : JS Response := fun w =>
  let config := config_at init w in
  let '(answer, n) := transport input config (net w) in
  (answer,
   {| console := console w; heap := heap w; net := n;
      sent := sent w ++ [(input, config)] |}).

(** ** logAndThrow, get, post *)

Definition logAndThrow (message : JSString) : JS never :=
  console_error message;;
  throw (Error message).

Definition get (url : URLOrString) (options : option loc) : JS Response :=
  response ← fetch url options;
  if negb (ok response)
  then throw (Error (ToString_N (status response) ++ js " could not get URL "
                       ++ ToString_url url))
  else mret response.

Definition post (url : URLOrString) (options : loc) : JS Response :=
  set_property options (js "method") (JString (js "POST"));;
  response ← fetch url (Some options);
  if negb (ok response)
  then throw (Error (ToString_N (status response) ++ js " could not post URL "
                       ++ ToString_url url))
  else mret response.

End Platform.

Arguments console {Net} _.
Arguments heap {Net} _.
Arguments net {Net} _.
Arguments sent {Net} _.
Arguments Build_World {Net} _ _ _ _.
Arguments logAndThrow {Net} message _.

(** ** Notions the properties are stated with *)

(** The reviver pass over the elements of an array and over the entries of
    an object, as functions of their own. *)
Fixpoint internalize_elements (reviver : Reviver) (i : N) (rs : list ParseRecord)
  : Outcome (list JSValue) :=
  match rs with
  | [] => Returned []
  | r :: rest =>
      v ← InternalizeJSONProperty reviver (ToString_N i) r;
      vs ← internalize_elements reviver (i + 1) rest;
      Returned (v :: vs)
  end.

Fixpoint internalize_entries (reviver : Reviver) (es : list (JSString * ParseRecord))
  : Outcome (list (JSString * JSValue)) :=
  match es with
  | [] => Returned []
  | (k, r) :: rest =>
      v ← InternalizeJSONProperty reviver k r;
      ps ← internalize_entries reviver rest;
      Returned (match v with JUndefined => ps | _ => (k, v) :: ps end)
  end.

(** No leaf of [v] is integer-valued: its leaves are strings, booleans,
    [null] and Numbers that [Number.isInteger] rejects. *)
Fixpoint integer_free (v : JSValue) : bool :=
  match v with
  | JUndefined | JNull | JBool _ | JString _ => true
  | JNumber x => negb (integral x)
  | JBigInt _ => false
  | JArray elements => forallb integer_free elements
  | JObject properties => forallb (fun p => integer_free (snd p)) properties
  end.

(** The exact value of an integral Number. *)
Definition integer_value (x : Number) : option Z :=
  match x with
  | S754_zero _ => Some 0%Z
  | S754_finite s m e =>
      if integral x
      then Some (cond_Zopp s (if (0 <=? e)%Z then Zpos m * 2 ^ e else Zpos m / 2 ^ (- e)))%Z
      else None
  | S754_infinity _ | S754_nan => None
  end.

(** The configuration object [o] after [o.method = POST]. *)
Definition with_POST (o : RequestInit) : RequestInit :=
  assign (js "method") (JString (js "POST")) o.

(** The assignment [options.method = POST] is refused in [w]: [options] is
    no object, or its [method] cannot be assigned. *)
Definition refuses_POST {Net} (options : loc) (w : World Net) : Prop :=
  match heap w !! options with
  | Some o => assignable (js "method") o = false
  | None => True
  end.

(** The nesting of a parse record: 1 for a primitive. *)
Fixpoint depth (r : ParseRecord) : nat :=
  match r with
  | PRPrimitive _ _ => 1
  | PRArray elements => S (fold_right Nat.max O (map depth elements))
  | PRObject entries => S (fold_right Nat.max O (map (fun e => depth (snd e)) entries))
  end.

(** The sign, the digits and the decimal exponent of a number literal, as
    [JSONNumber_value] reads them. *)
Definition literal_parts (src : JSString) : bool * N * Z :=
  let '(neg, body) := match src with 45 :: r => (true, r) | _ => (false, src) end in
  let '(mantissa, exp) := cut_at is_exponent_mark body in
  let '(int, frac) := cut_at (N.eqb 46) mantissa in
  let frac := default [] frac in
  let e10 := (from_option exponent_value 0 exp - Z.of_nat (length frac))%Z in
  (neg, default 0 (digits_in 10 (int ++ frac)), e10).

(** The number a literal denotes, before any rounding, is an integer. *)
Definition denotes_integer (src : JSString) : bool :=
  let '(_, digits, e10) := literal_parts src in
  (0 <=? e10)%Z || (digits mod 10 ^ Z.to_N (- e10) =? 0).

(** The status check of [get] and [post] on [response]: in the success
    range the response is returned; outside it an Error is thrown whose
    message is the status code, [phrase] and the address, in this order. *)
Definition status_checked (phrase : JSString) (url : URLOrString)
    (response : Response) (result : Outcome Response) : Prop :=
  (200 <= status response <= 299 -> result = Returned response)
  /\ (~ 200 <= status response <= 299 ->
      let message := ToString_N (status response) ++ phrase ++ ToString_url url in
      result = Thrown (Error message)
      /\ contains (ToString_N (status response)) message
      /\ contains (ToString_url url) message).

(** [run], the completion and final world of a call started in [w], made
    one attempt at [request]: the transport, which answered [transported],
    was invoked exactly once; its rejection is the call's exception as it
    is; a response with a failing status makes the call throw at once. *)
Definition single_attempt {Net} (request : Request)
    (transported : Outcome Response * Net) (w : World Net)
    (run : Outcome Response * World Net) : Prop :=
  sent (snd run) = sent w ++ [request]
  /\ net (snd run) = snd transported
  /\ match fst transported with
     | Thrown e => fst run = Thrown e
     | Returned response =>
         if ok response then fst run = Returned response
         else exists message, fst run = Thrown (Error message)
     end.


(** The primitive leaves of a parse record, each with its source text, in
    source order. *)
Fixpoint leaves (r : ParseRecord) : list (JSString * Primitive) :=
  match r with
  | PRPrimitive src p => [(src, p)]
  | PRArray elements => flat_map leaves elements
  | PRObject entries => flat_map (fun e => leaves (snd e)) entries
  end.

(** The literal is written without a fraction and without an exponent. *)
Definition plain (src : JSString) : bool :=
  negb (existsb (fun c => (c =? 46) || is_exponent_mark c) src).

(** The integer a plain number literal denotes. *)
Definition literal_integer (src : JSString) : Z :=
  match src with
  | 45 :: ds => - Z.of_N (default 0 (digits_in 10 ds))
  | ds => Z.of_N (default 0 (digits_in 10 ds))
  end.

(** Every number leaf whose Number value is an integer is written plainly. *)
Definition integers_plain (r : ParseRecord) : bool :=
  forallb (fun l => match snd l with
                    | PNumber x => implb (integral x) (plain (fst l))
                    | _ => true
                    end)
          (leaves r).

(** The value of a parse record with every integer-valued number leaf
    replaced by the BigInt its literal denotes. *)
Fixpoint revived_value (r : ParseRecord) : JSValue :=
  match r with
  | PRPrimitive src (PNumber x) =>
      if integral x then JBigInt (literal_integer src) else JNumber x
  | PRPrimitive _ p => prim p
  | PRArray elements => JArray (map revived_value elements)
  | PRObject entries =>
      JObject (map (fun e => (fst e, revived_value (snd e))) entries)
  end.

(** No Number in [v] is integer-valued. *)
Fixpoint no_integral_Number (v : JSValue) : bool :=
  match v with
  | JNumber x => negb (integral x)
  | JArray elements => forallb no_integral_Number elements
  | JObject properties => forallb (fun p => no_integral_Number (snd p)) properties
  | _ => true
  end.

(** The Number [x] is the binary64 value nearest to the integer [z]; for
    [z = 0] it may also be the negative zero. *)
Definition nearest_Number (z : Z) (x : Number) : Prop :=
  x = decimal_to_Number (z <? 0)%Z (Z.abs_N z) 0
  \/ (z = 0%Z /\ x = S754_zero true).

(** [out] is [std] with integer-valued Numbers turned into BigInts: the
    same arrays and objects, with the same keys in the same order; the same
    strings, booleans, [null]s and non-integer Numbers; and for an
    integer-valued Number a BigInt whose nearest Number it is. *)
Inductive Mirrors : JSValue -> JSValue -> Prop :=
| mirrors_null : Mirrors JNull JNull
| mirrors_bool b : Mirrors (JBool b) (JBool b)
| mirrors_string s : Mirrors (JString s) (JString s)
| mirrors_number x : integral x = false -> Mirrors (JNumber x) (JNumber x)
| mirrors_integer x z :
    integral x = true -> nearest_Number z x -> Mirrors (JNumber x) (JBigInt z)
| mirrors_array vs vs' : Forall2 Mirrors vs vs' -> Mirrors (JArray vs) (JArray vs')
| mirrors_object ps ps' :
    Forall2 (fun p p' => fst p = fst p' /\ Mirrors (snd p) (snd p')) ps ps' ->
    Mirrors (JObject ps) (JObject ps').

(** The decimal numeral of an integer, as [BigInt.prototype.toString] and
    [JSON.stringify] of an integer print it. *)
Definition ToString_Z (z : Z) : JSString :=
  if (z <? 0)%Z then 45 :: ToString_N (Z.abs_N z) else ToString_N (Z.abs_N z).

(** ** Notions the proofs use *)

(** The phase the number scanner reaches from [p] over [s]. *)
Fixpoint num_run (p : NumPhase) (s : JSString) : option NumPhase :=
  match s with
  | [] => Some p
  | c :: rest =>
      match num_next p c with
      | Some p' => num_run p' rest
      | None => None
      end
  end.

(** No literal token is directly followed by another. *)
Fixpoint separated (toks : list Token) : bool :=
  match toks with
  | TLiteral _ _ :: (TLiteral _ _ :: _) => false
  | _ :: rest => separated rest
  | [] => true
  end.

(** The phase of the number scanner after the first character of a number. *)
Definition number_start (c : N) : option NumPhase :=
  if c =? 45 then Some NpMinus
  else if c =? 48 then Some NpZero
  else if is_digit c then Some NpInt
  else None.

(** The texts that take the number scanner to each phase. *)
Definition Reached (p : NumPhase) (s : JSString) : Prop :=
  match p with
  | NpMinus => s = [45]
  | NpZero => exists sg, Optional (eq [45]) sg /\ s = sg ++ [48]
  | NpInt =>
      exists sg d ds,
        Optional (eq [45]) sg /\ is_digit d = true /\ d <> 48
        /\ forallb is_digit ds = true /\ s = sg ++ d :: ds
  | NpPoint =>
      exists sg int, Optional (eq [45]) sg /\ IntegerPart int /\ s = sg ++ int ++ [46]
  | NpFrac =>
      exists sg int ds,
        Optional (eq [45]) sg /\ IntegerPart int /\ Digits ds /\ s = sg ++ int ++ 46 :: ds
  | NpMark =>
      exists sg int fr m,
        Optional (eq [45]) sg /\ IntegerPart int /\ Optional Fraction fr
        /\ is_exponent_mark m = true /\ s = sg ++ int ++ fr ++ [m]
  | NpSign =>
      exists sg int fr m x,
        Optional (eq [45]) sg /\ IntegerPart int /\ Optional Fraction fr
        /\ is_exponent_mark m = true /\ Sign [x] /\ s = sg ++ int ++ fr ++ [m; x]
  | NpExp =>
      exists sg int fr m esg ds,
        Optional (eq [45]) sg /\ IntegerPart int /\ Optional Fraction fr
        /\ is_exponent_mark m = true /\ Optional Sign esg /\ Digits ds
        /\ s = sg ++ int ++ fr ++ m :: esg ++ ds
  end.

Scheme ValueTokens_mut := Minimality for ValueTokens Sort Prop
  with MoreElements_mut := Minimality for MoreElements Sort Prop
  with MemberTokens_mut := Minimality for MemberTokens Sort Prop
  with MoreMembers_mut := Minimality for MoreMembers Sort Prop.
Combined Scheme grammar_mutind
  from ValueTokens_mut, MoreElements_mut, MemberTokens_mut, MoreMembers_mut.

(** What the parser does after a value, by the innermost open frame. *)
Definition after_value (r : ParseRecord) (stack : list Frame) (rest : list Token)
  : option ParseRecord :=
  match reduce r stack with
  | Some st => parse_tokens st rest
  | None => None
  end.

(** From a state that awaits a value, the end of an array, a member or the
    end of an object, an accepting run first reads exactly that. *)
Definition reads_value (n : nat) : Prop :=
  forall toks, (length toks <= n)%nat -> forall stack out,
    parse_tokens (EValue, stack) toks = Some out ->
    exists vt rest r st,
      toks = vt ++ rest /\ ValueTokens vt r /\ reduce r stack = Some st
      /\ parse_tokens st rest = Some out.

Definition reads_elements (n : nat) : Prop :=
  forall toks, (length toks <= n)%nat -> forall done stack out,
    parse_tokens (ESeparator, FArray done :: stack) toks = Some out ->
    exists more rest rs st,
      toks = more ++ TEndArray :: rest /\ MoreElements more rs
      /\ reduce (PRArray (rev done ++ rs)) stack = Some st
      /\ parse_tokens st rest = Some out.

Definition reads_member (n : nat) : Prop :=
  forall toks, (length toks <= n)%nat -> forall props stack out,
    parse_tokens (EKey, FObject props None :: stack) toks = Some out ->
    exists mt rest m,
      toks = mt ++ rest /\ MemberTokens mt m
      /\ parse_tokens
           (ESeparator, FObject (CreateDataProperty (fst m) (snd m) props) None :: stack)
           rest = Some out.

Definition reads_members (n : nat) : Prop :=
  forall toks, (length toks <= n)%nat -> forall props stack out,
    parse_tokens (ESeparator, FObject props None :: stack) toks = Some out ->
    exists more rest ms st,
      toks = more ++ TEndObject :: rest /\ MoreMembers more ms
      /\ reduce
           (PRObject (fold_left (fun ps m => CreateDataProperty (fst m) (snd m) ps) ms props))
           stack = Some st
      /\ parse_tokens st rest = Some out.

(** Prepending tokens to the outcome of the rest of the scan. *)
Definition emit (toks : list Token) (more : option (list Token)) : option (list Token) :=
  match more with
  | Some l => Some (toks ++ l)
  | None => None
  end.

(** What a code unit between two tokens starts. *)
Inductive Start (c : N) : LexMode -> list Token -> Prop :=
| start_ws : is_ws c = true -> Start c Between []
| start_structural t : structural c = Some t -> Start c Between [t]
| start_string : c = 34 -> Start c (InString [34] []) []
| start_number p : number_start c = Some p -> Start c (InNumber p [c]) []
| start_null : c = 110 -> Start c (InWord (js "ull") (TLiteral (js "null") PNull)) []
| start_true : c = 116 -> Start c (InWord (js "rue") (TLiteral (js "true") (PBool true))) []
| start_false :
    c = 102 -> Start c (InWord (js "alse") (TLiteral (js "false") (PBool false))) [].

(** The states in which the parser accepts a literal. *)
Definition awaits_literal (e : Expect) : bool :=
  match e with
  | EValue | EValueOrEnd | EKeyOrEnd | EKey => true
  | EColon | ESeparator | EDone _ => false
  end.

(** Case analysis on the comparisons of [num_next]. *)
Ltac num_next_cases H :=
  repeat match type of H with
         | (if ?c =? ?k then _ else _) = _ =>
             destruct (N.eqb_spec c k) as [-> |]
         | (if is_digit ?c then _ else _) = _ =>
             let Hd := fresh "Hd" in destruct (is_digit c) eqn:Hd
         | (if is_exponent_mark ?c then _ else _) = _ =>
             let Hm := fresh "Hm" in destruct (is_exponent_mark c) eqn:Hm
         | (if (?c =? 43) || (?c =? 45) then _ else _) = _ =>
             let Hs := fresh "Hs" in destruct ((c =? 43) || (c =? 45)) eqn:Hs
         end;
  try discriminate H; try (injection H as <-).

(** Side conditions on runs of digits and parts of a number literal. *)
Ltac digits_side :=
  match goal with
  | |- _ <> _ => solve [discriminate | intros E; now apply app_eq_nil in E as [_ [=]]]
  | |- forallb is_digit _ = true =>
      solve [rewrite ?forallb_app; simpl;
             repeat match goal with
                    | H : is_digit _ = true |- _ => rewrite H
                    | H : forallb is_digit _ = true |- _ => rewrite H
                    | H : Digits _ |- _ => rewrite (proj2 H)
                    end; reflexivity]
  | |- _ = _ => solve [reflexivity | now rewrite <- ?app_assoc]
  | |- Optional _ _ => solve [assumption | constructor | constructor; digits_side]
  | |- IntegerPart _ => solve [assumption | now constructor]
  | |- Fraction _ => solve [constructor; digits_side]
  | |- Sign _ => solve [assumption | constructor]
  | |- Digits _ => solve [assumption | split; digits_side]
  | _ => assumption
  end.

(** The characters a number literal is made of. *)
Definition number_char (c : N) : bool :=
  is_digit c || (c =? 43) || (c =? 45) || (c =? 46) || is_exponent_mark c.

(** The fold of [digits_in], from an accumulator. *)
Definition digits_from (radix : N) (acc : option N) (ds : JSString) : option N :=
  fold_left
    (fun acc c =>
       match acc, hex_value c with
       | Some a, Some d => if d <? radix then Some (a * radix + d) else None
       | _, _ => None
       end)
    ds acc.

(** A point or an exponent mark. *)
Definition is_point_or_mark (c : N) : bool := (c =? 46) || is_exponent_mark c.

(** A literal token is spelled by its own source text. *)
Definition token_spelled (t : Token) : Prop :=
  match t with
  | TLiteral src p => Spells (TLiteral src p) src
  | _ => True
  end.

(** A leaf is a primitive spelled by its source text. *)
Definition leaf_spelled (l : JSString * Primitive) : Prop :=
  Spells (TLiteral (fst l) (snd l)) (fst l).

(** The pass over the elements of an array and over the entries of an
    object, for any way [visit] of internalizing one of them. *)
Definition elements_pass (visit : JSString -> ParseRecord -> Outcome JSValue)
  : N -> list ParseRecord -> Outcome (list JSValue) :=
  fix each (i : N) (rs : list ParseRecord) : Outcome (list JSValue) :=
    match rs with
    | [] => Returned []
    | r :: rest =>
        v ← visit (ToString_N i) r;
        vs ← each (i + 1) rest;
        Returned (v :: vs)
    end.

Definition entries_pass (visit : JSString -> ParseRecord -> Outcome JSValue)
  : list (JSString * ParseRecord) -> Outcome (list (JSString * JSValue)) :=
  fix each (es : list (JSString * ParseRecord)) : Outcome (list (JSString * JSValue)) :=
    match es with
    | [] => Returned []
    | (k, r) :: rest =>
        v ← visit k r;
        ps ← each rest;
        Returned (match v with JUndefined => ps | _ => (k, v) :: ps end)
    end.

(** ** Sample inputs *)

(** A JSON string literal: [s] between double quotes. *)
Definition quoted (s : string) : JSString := 34 :: js s ++ [34].

Definition doc_large_integer : JSString :=
  js "{" ++ quoted "a" ++ js ": 123456789012345678}".

Definition doc_one_point_zero : JSString := js "{" ++ quoted "a" ++ js ": 1.0}".

Definition doc_1e2 : JSString := js "{" ++ quoted "a" ++ js ": 1e2}".

Definition doc_unclosed : JSString := js "{".

Definition doc_no_integer : JSString :=
  js "{" ++ quoted "name" ++ js ": " ++ quoted "aleo" ++ js ", "
    ++ quoted "fee" ++ js ": [0.25, 1.5e-3, true, null]}".

Definition doc_rounds_to_one : JSString := js "0.99999999999999999999".

(** The parse record of [doc_no_integer]. *)
Definition doc_no_integer_record : ParseRecord :=
  PRObject
    [(js "name", PRPrimitive (quoted "aleo") (PString (js "aleo")));
     (js "fee",
      PRArray [PRPrimitive (js "0.25") (PNumber (JSONNumber_value (js "0.25")));
               PRPrimitive (js "1.5e-3") (PNumber (JSONNumber_value (js "1.5e-3")));
               PRPrimitive (js "true") (PBool true);
               PRPrimitive (js "null") PNull])].

(** A transport that answers every request with the given status and counts
    its invocations. *)
Definition answering (s : N)
  : URLOrString -> option RequestInit -> nat -> Outcome Response * nat :=
  fun _ _ n => (Returned {| status := s; statusText := []; body := [] |}, S n).

(** A transport that rejects every request. *)
Definition rejecting (e : Exception)
  : URLOrString -> option RequestInit -> nat -> Outcome Response * nat :=
  fun _ _ n => (Thrown e, S n).

Definition sample_url : URLOrString := AsString (js "https://api.explorer.aleo.org/v1").

(** An object literal: every property writable, the object extensible. *)
Definition sample_config : RequestInit :=
  {| fields := {[ js "method" := JString (js "GET"); js "body" := JString (js "x") ]};
     readonly := ∅; extensible := true |}.

(** A world in which the caller holds [sample_config] at reference 1. *)
Definition sample_world : World nat :=
  Build_World [] {[ 1%positive := sample_config ]} O [].

(** [sample_config] frozen: [Object.freeze({method: GET, body: x})]. *)
Definition frozen_config : RequestInit :=
  {| fields := fields sample_config;
     readonly := {[ js "method"; js "body" ]}; extensible := false |}.

(** A world in which the caller holds [frozen_config] at reference 1. *)
Definition frozen_world : World nat :=
  Build_World [] {[ 1%positive := frozen_config ]} O [].

(** A world in which no configuration object exists. *)
Definition empty_world : World nat := Build_World [] ∅ O [].

(** Three nested arrays. *)
Definition doc_nested : JSString := js "[[[]]]".

(** An object with the key [a] twice. *)
Definition doc_shadowed : JSString :=
  js "{" ++ quoted "a" ++ js ": 1.0, " ++ quoted "a" ++ js ": 2}".

Definition doc_mixed : JSString :=
  js "{" ++ quoted "height" ++ js ": 9007199254740993, " ++ quoted "fee"
    ++ js ": [0.25, -7]}".

(** The parse record of [doc_mixed]. *)
Definition doc_mixed_record : ParseRecord :=
  PRObject
    [(js "height",
      PRPrimitive (js "9007199254740993")
                  (PNumber (JSONNumber_value (js "9007199254740993"))));
     (js "fee",
      PRArray [PRPrimitive (js "0.25") (PNumber (JSONNumber_value (js "0.25")));
               PRPrimitive (js "-7") (PNumber (JSONNumber_value (js "-7")))])].

(** The value [parseJSON] returns on [doc_mixed]. *)
Definition doc_mixed_value : JSValue :=
  JObject
    [(js "height", JBigInt 9007199254740993);
     (js "fee", JArray [JNumber (JSONNumber_value (js "0.25")); JBigInt (-7)])].

(** A successful and a failing response. *)
Definition success : Response := {| status := 200; statusText := []; body := [] |}.


(** * Properties *)

(** ** The parser recognises the value grammar *)

Lemma parse_tokens_cons st t rest :
  parse_tokens st (t :: rest) =
  match parse_step st t with
  | Some st' => parse_tokens st' rest
  | None => None
  end.
Proof. reflexivity. Qed.

Lemma parse_tokens_step st t st' rest :
  parse_step st t = Some st' -> parse_tokens st (t :: rest) = parse_tokens st' rest.
Proof. intros H. simpl. now rewrite H. Qed.

Lemma after_value_in_array r done stack rest :
  after_value r (FArray done :: stack) rest =
  parse_tokens (ESeparator, FArray (r :: done) :: stack) rest.
Proof. reflexivity. Qed.

Lemma after_value_in_object r props k stack rest :
  after_value r (FObject props (Some k) :: stack) rest =
  parse_tokens (ESeparator, FObject (CreateDataProperty k r props) None :: stack) rest.
Proof. reflexivity. Qed.

Lemma parser_complete_mut :
  (forall toks r, ValueTokens toks r ->
     forall e stack rest, e = EValue \/ e = EValueOrEnd ->
       parse_tokens (e, stack) (toks ++ rest) = after_value r stack rest)
  /\ (forall more rs, MoreElements more rs ->
        forall done stack rest,
          parse_tokens (ESeparator, FArray done :: stack) (more ++ TEndArray :: rest)
          = after_value (PRArray (rev done ++ rs)) stack rest)
  /\ (forall toks m, MemberTokens toks m ->
        forall e props stack rest, e = EKeyOrEnd \/ e = EKey ->
          parse_tokens (e, FObject props None :: stack) (toks ++ rest)
          = parse_tokens
              (ESeparator, FObject (CreateDataProperty (fst m) (snd m) props) None :: stack)
              rest)
  /\ (forall more ms, MoreMembers more ms ->
        forall props stack rest,
          parse_tokens (ESeparator, FObject props None :: stack) (more ++ TEndObject :: rest)
          = after_value
              (PRObject (fold_left (fun ps m => CreateDataProperty (fst m) (snd m) ps) ms props))
              stack rest).
Proof.
  apply grammar_mutind.
  - (* literal *)
    intros src p e stack rest [-> | ->]; reflexivity.
  - (* [] *)
    intros e stack rest [-> | ->]; reflexivity.
  - (* [ first more ] *)
    intros first r more rs _ IHfirst _ IHmore e stack rest He.
    replace ((TBeginArray :: first ++ more ++ [TEndArray]) ++ rest)
      with (TBeginArray :: first ++ (more ++ TEndArray :: rest))
      by (simpl; now rewrite <- !app_assoc).
    rewrite (parse_tokens_step _ _ (EValueOrEnd, FArray [] :: stack))
      by (now destruct He as [-> | ->]).
    rewrite (IHfirst EValueOrEnd) by now right.
    rewrite after_value_in_array. apply IHmore.
  - (* {} *)
    intros e stack rest [-> | ->]; reflexivity.
  - (* { first more } *)
    intros first m more ms _ IHfirst _ IHmore e stack rest He.
    replace ((TBeginObject :: first ++ more ++ [TEndObject]) ++ rest)
      with (TBeginObject :: first ++ (more ++ TEndObject :: rest))
      by (simpl; now rewrite <- !app_assoc).
    rewrite (parse_tokens_step _ _ (EKeyOrEnd, FObject [] None :: stack))
      by (now destruct He as [-> | ->]).
    rewrite (IHfirst EKeyOrEnd) by now left.
    apply IHmore.
  - (* no more elements *)
    intros done stack rest. simpl. now rewrite app_nil_r.
  - (* , value more *)
    intros toks r more rs _ IHvalue _ IHmore done stack rest.
    simpl app. rewrite <- app_assoc.
    rewrite (parse_tokens_step _ _ (EValue, FArray done :: stack)) by reflexivity.
    rewrite (IHvalue EValue) by now left.
    rewrite after_value_in_array, IHmore. simpl rev. now rewrite <- app_assoc.
  - (* member *)
    intros src k toks r _ IHvalue e props stack rest He.
    simpl app.
    rewrite (parse_tokens_step _ _ (EColon, FObject props (Some k) :: stack))
      by (now destruct He as [-> | ->]).
    rewrite (parse_tokens_step _ _ (EValue, FObject props (Some k) :: stack))
      by reflexivity.
    rewrite (IHvalue EValue) by now left.
    apply after_value_in_object.
  - (* no more members *)
    intros props stack rest. reflexivity.
  - (* , member more *)
    intros toks m more ms _ IHmember _ IHmore props stack rest.
    simpl app. rewrite <- app_assoc.
    rewrite (parse_tokens_step _ _ (EKey, FObject props None :: stack)) by reflexivity.
    rewrite (IHmember EKey) by now right.
    apply IHmore.
Qed.

Lemma parser_complete toks r :
  ValueTokens toks r -> parse_tokens (EValue, []) toks = Some r.
Proof.
  intros H. destruct parser_complete_mut as [Hvalue _].
  specialize (Hvalue _ _ H EValue [] [] (or_introl eq_refl)).
  now rewrite app_nil_r in Hvalue.
Qed.

(** What each state of the parser accepts. *)

Lemma step_value stack t st :
  parse_step (EValue, stack) t = Some st ->
  (exists src p, t = TLiteral src p /\ reduce (PRPrimitive src p) stack = Some st)
  \/ (t = TBeginArray /\ st = (EValueOrEnd, FArray [] :: stack))
  \/ (t = TBeginObject /\ st = (EKeyOrEnd, FObject [] None :: stack)).
Proof.
  destruct t; destruct stack as [| [done | props [k |]] below]; simpl; intros [= <-] || intros H;
    try discriminate; eauto 6.
Qed.

Lemma step_value_or_end stack t st :
  parse_step (EValueOrEnd, FArray [] :: stack) t = Some st ->
  (t = TEndArray /\ reduce (PRArray []) stack = Some st)
  \/ parse_step (EValue, FArray [] :: stack) t = Some st.
Proof. destruct t; simpl; intros H; try discriminate; eauto. Qed.

Lemma step_key_or_end stack t st :
  parse_step (EKeyOrEnd, FObject [] None :: stack) t = Some st ->
  (t = TEndObject /\ reduce (PRObject []) stack = Some st)
  \/ parse_step (EKey, FObject [] None :: stack) t = Some st.
Proof. destruct t as [| | | | | | src []]; simpl; intros H; try discriminate; eauto. Qed.

Lemma step_key props stack t st :
  parse_step (EKey, FObject props None :: stack) t = Some st ->
  exists src k, t = TLiteral src (PString k) /\ st = (EColon, FObject props (Some k) :: stack).
Proof.
  destruct t as [| | | | | | src []]; simpl; intros H; try discriminate.
  injection H as <-. eauto.
Qed.

Lemma step_colon stack t st :
  parse_step (EColon, stack) t = Some st -> t = TColon /\ st = (EValue, stack).
Proof.
  destruct t; destruct stack as [| [done | props [k |]] below]; simpl; intros H;
    try discriminate; injection H as <-; auto.
Qed.

Lemma step_separator_array done stack t st :
  parse_step (ESeparator, FArray done :: stack) t = Some st ->
  (t = TEndArray /\ reduce (PRArray (rev done)) stack = Some st)
  \/ (t = TComma /\ st = (EValue, FArray done :: stack)).
Proof. destruct t; simpl; intros H; try discriminate; [left | right; injection H as <-]; auto. Qed.

Lemma step_separator_object props stack t st :
  parse_step (ESeparator, FObject props None :: stack) t = Some st ->
  (t = TEndObject /\ reduce (PRObject props) stack = Some st)
  \/ (t = TComma /\ st = (EKey, FObject props None :: stack)).
Proof. destruct t; simpl; intros H; try discriminate; [left | right; injection H as <-]; auto. Qed.

Lemma parse_tokens_inv st toks out :
  parse_tokens st toks = Some out ->
  (toks = [] /\ st = (EDone out, []))
  \/ exists t rest st', toks = t :: rest /\ parse_step st t = Some st'
                        /\ parse_tokens st' rest = Some out.
Proof.
  destruct toks as [| t rest]; simpl.
  - destruct st as [[] [|]]; intros H; try discriminate. injection H as <-. now left.
  - destruct (parse_step st t) as [st' |] eqn:E; [| discriminate].
    intros H. right. eauto 6.
Qed.

Lemma length_app_r {A} (a b : list A) : (length b <= length (a ++ b))%nat.
Proof. rewrite length_app. lia. Qed.

Lemma parser_sound_mut n :
  reads_value n /\ reads_elements n /\ reads_member n /\ reads_members n.
Proof.
  induction n as [| n (IHvalue & IHelements & IHmember & IHmembers)].
  { repeat split; intros [| t toks] Hlen; simpl in Hlen; try lia; intros; discriminate. }
  assert (Hvalue : reads_value (S n)).
  { intros toks Hlen stack out Hrun.
    apply parse_tokens_inv in Hrun as [[_ [=]] | (t & toks' & st' & -> & Hstep & Hrun)].
    simpl in Hlen.
    apply step_value in Hstep as [(src & p & -> & Hred) | [[-> ->] | [-> ->]]].
    - exists [TLiteral src p], toks', (PRPrimitive src p), st'.
      repeat split; auto. constructor.
    - apply parse_tokens_inv in Hrun as [[_ [=]] | (t & toks'' & st'' & -> & Hstep & Hrun)].
      apply step_value_or_end in Hstep as [[-> Hred] | Hstep].
      + exists [TBeginArray; TEndArray], toks'', (PRArray []), st''.
        repeat split; auto. constructor.
      + assert (Hrun' : parse_tokens (EValue, FArray [] :: stack) (t :: toks'') = Some out)
          by (now rewrite parse_tokens_cons, Hstep).
        apply IHvalue in Hrun' as (vt & rest & r & st & Heq & Hvt & Hred & Hrun'); [| lia].
        injection Hred as <-.
        apply IHelements in Hrun' as (more & rest' & rs & st & -> & Hmore & Hred & Hrun');
          [| pose proof (length_app_r vt rest) as Hle; rewrite <- Heq in Hle;
             simpl in Hle, Hlen; lia].
        exists (TBeginArray :: vt ++ more ++ [TEndArray]), rest', (PRArray (r :: rs)), st.
        repeat split; auto.
        * rewrite Heq. simpl. now rewrite <- !app_assoc.
        * now constructor.
    - apply parse_tokens_inv in Hrun as [[_ [=]] | (t & toks'' & st'' & -> & Hstep & Hrun)].
      apply step_key_or_end in Hstep as [[-> Hred] | Hstep].
      + exists [TBeginObject; TEndObject], toks'', (PRObject []), st''.
        repeat split; auto. constructor.
      + assert (Hrun' : parse_tokens (EKey, FObject [] None :: stack) (t :: toks'') = Some out)
          by (now rewrite parse_tokens_cons, Hstep).
        apply IHmember in Hrun' as (mt & rest & m & Heq & Hmt & Hrun'); [| lia].
        apply IHmembers in Hrun' as (more & rest' & ms & st & -> & Hmore & Hred & Hrun');
          [| pose proof (length_app_r mt rest) as Hle; rewrite <- Heq in Hle;
             simpl in Hle, Hlen; lia].
        exists (TBeginObject :: mt ++ more ++ [TEndObject]), rest',
               (PRObject (properties_of (m :: ms))), st.
        repeat split; auto.
        * rewrite Heq. simpl. now rewrite <- !app_assoc.
        * now constructor. }
  assert (Helements : reads_elements (S n)).
  { intros toks Hlen done stack out Hrun.
    apply parse_tokens_inv in Hrun as [[_ [=]] | (t & toks' & st' & -> & Hstep & Hrun)].
    simpl in Hlen.
    apply step_separator_array in Hstep as [[-> Hred] | [-> ->]].
    - exists [], toks', [], st'. rewrite app_nil_r. repeat split; auto. constructor.
    - apply IHvalue in Hrun as (vt & rest & r & st & -> & Hvt & Hred & Hrun); [| lia].
      injection Hred as <-.
      apply IHelements in Hrun as (more & rest' & rs & st & -> & Hmore & Hred & Hrun);
        [| pose proof (length_app_r vt rest); lia].
      exists (TComma :: vt ++ more), rest', (r :: rs), st.
      repeat split; auto.
      + simpl. now rewrite <- app_assoc.
      + now constructor.
      + simpl in Hred. now rewrite <- app_assoc in Hred. }
  assert (Hmember : reads_member (S n)).
  { intros toks Hlen props stack out Hrun.
    apply parse_tokens_inv in Hrun as [[_ [=]] | (t & toks' & st' & -> & Hstep & Hrun)].
    simpl in Hlen.
    apply step_key in Hstep as (src & k & -> & ->).
    apply parse_tokens_inv in Hrun as [[_ [=]] | (t & toks'' & st'' & -> & Hstep & Hrun)].
    simpl in Hlen.
    apply step_colon in Hstep as [-> ->].
    apply IHvalue in Hrun as (vt & rest & r & st & -> & Hvt & Hred & Hrun); [| lia].
    injection Hred as <-.
    exists (TLiteral src (PString k) :: TColon :: vt), rest, (k, r).
    split; [reflexivity |]. split; [now constructor | exact Hrun]. }
  assert (Hmembers : reads_members (S n)).
  { intros toks Hlen props stack out Hrun.
    apply parse_tokens_inv in Hrun as [[_ [=]] | (t & toks' & st' & -> & Hstep & Hrun)].
    simpl in Hlen.
    apply step_separator_object in Hstep as [[-> Hred] | [-> ->]].
    - exists [], toks', [], st'. repeat split; auto. constructor.
    - apply IHmember in Hrun as (mt & rest & m & -> & Hmt & Hrun); [| lia].
      apply IHmembers in Hrun as (more & rest' & ms & st & -> & Hmore & Hred & Hrun);
        [| pose proof (length_app_r mt rest); lia].
      exists (TComma :: mt ++ more), rest', (m :: ms), st.
      repeat split; auto.
      + simpl. now rewrite <- app_assoc.
      + now constructor. }
  auto.
Qed.

Lemma parser_sound toks r :
  parse_tokens (EValue, []) toks = Some r -> ValueTokens toks r.
Proof.
  intros Hrun.
  destruct (parser_sound_mut (length toks)) as [Hvalue _].
  apply Hvalue in Hrun as (vt & rest & v & st & -> & Hvt & Hred & Hrun); [| lia].
  injection Hred as <-.
  apply parse_tokens_inv in Hrun as [[-> [= ->]] | (t & rest' & st' & _ & Hstep & _)].
  - now rewrite app_nil_r.
  - destruct t; discriminate.
Qed.

(** ** The number scanner recognises number literals *)

Lemma is_digit_range c : is_digit c = true <-> 48 <= c <= 57.
Proof. unfold is_digit. rewrite andb_true_iff, !N.leb_le. reflexivity. Qed.

Lemma is_exponent_mark_cases c : is_exponent_mark c = true -> c = 101 \/ c = 69.
Proof.
  unfold is_exponent_mark. rewrite orb_true_iff, !N.eqb_eq. tauto.
Qed.

Lemma Digits_snoc ds d :
  forallb is_digit ds = true -> is_digit d = true -> Digits (ds ++ [d]).
Proof.
  intros Hds Hd. split; [now destruct ds |].
  rewrite forallb_app, Hds. simpl. now rewrite Hd.
Qed.

Lemma Digits_all ds : Digits ds -> forallb is_digit ds = true.
Proof. now intros [_ H]. Qed.

Lemma number_start_cases c p :
  number_start c = Some p ->
  (c = 45 /\ p = NpMinus) \/ (c = 48 /\ p = NpZero)
  \/ (is_digit c = true /\ c <> 48 /\ p = NpInt).
Proof.
  unfold number_start.
  destruct (N.eqb_spec c 45) as [-> |]; [intros [= <-]; auto |].
  destruct (N.eqb_spec c 48) as [-> |]; [intros [= <-]; auto |].
  destruct (is_digit c) eqn:Hd; [intros [= <-]; auto | discriminate].
Qed.

Lemma Reached_start c p : number_start c = Some p -> Reached p [c].
Proof.
  intros [[-> ->] | [[-> ->] | (Hd & Hz & ->)]]%number_start_cases; simpl.
  - reflexivity.
  - exists []. split; [constructor | reflexivity].
  - exists [], c, []. repeat split; auto. constructor.
Qed.

Lemma Reached_step p s c p' :
  Reached p s -> num_next p c = Some p' -> Reached p' (s ++ [c]).
Proof.
  destruct p; simpl; intros Hs Hnext; num_next_cases Hnext; simpl.
  - (* - 0 *) subst s. exists [45]. split; [now constructor | reflexivity].
  - (* - d *) subst s. exists [45], c, []. repeat split; digits_side.
  - (* 0 . *) destruct Hs as (sg & Hsg & ->).
    exists sg, [48]. repeat split; digits_side.
  - (* 0 e *) destruct Hs as (sg & Hsg & ->).
    exists sg, [48], [], c. repeat split; digits_side.
  - (* d d *) destruct Hs as (sg & d & ds & Hsg & Hd1 & Hz & Hds & ->).
    exists sg, d, (ds ++ [c]). repeat split; digits_side.
  - (* d . *) destruct Hs as (sg & d & ds & Hsg & Hd1 & Hz & Hds & ->).
    exists sg, (d :: ds). repeat split; digits_side.
  - (* d e *) destruct Hs as (sg & d & ds & Hsg & Hd1 & Hz & Hds & ->).
    exists sg, (d :: ds), [], c. repeat split; digits_side.
  - (* . d *) destruct Hs as (sg & int & Hsg & Hint & ->).
    exists sg, int, [c]. split; [| split; [| split]]; digits_side.
  - (* .d d *) destruct Hs as (sg & int & ds & Hsg & Hint & Hds & ->).
    exists sg, int, (ds ++ [c]). split; [| split; [| split]]; digits_side.
  - (* .d e *) destruct Hs as (sg & int & ds & Hsg & Hint & Hds & ->).
    exists sg, int, (46 :: ds), c. split; [| split; [| split; [| split]]]; digits_side.
  - (* e d *) destruct Hs as (sg & int & fr & m & Hsg & Hint & Hfr & Hm & ->).
    exists sg, int, fr, m, [], [c].
    split; [| split; [| split; [| split; [| split; [| split]]]]]; digits_side.
  - (* e sign *) destruct Hs as (sg & int & fr & m & Hsg & Hint & Hfr & Hm & ->).
    exists sg, int, fr, m, c.
    split; [| split; [| split; [| split; [| split]]]]; try digits_side.
    apply orb_true_iff in Hs0 as [->%N.eqb_eq | ->%N.eqb_eq]; constructor.
  - (* sign d *) destruct Hs as (sg & int & fr & m & x & Hsg & Hint & Hfr & Hm & Hx & ->).
    exists sg, int, fr, m, [x], [c].
    split; [| split; [| split; [| split; [| split; [| split]]]]]; digits_side.
  - (* exp d *)
    destruct Hs as (sg & int & fr & m & esg & ds & Hsg & Hint & Hfr & Hm & Hesg & Hds & ->).
    exists sg, int, fr, m, esg, (ds ++ [c]).
    split; [| split; [| split; [| split; [| split; [| split]]]]]; try digits_side.
    change (m :: esg ++ ds ++ [c]) with ((m :: esg) ++ ds ++ [c]).
    change (m :: esg ++ ds) with ((m :: esg) ++ ds).
    now rewrite <- !app_assoc.
Qed.

Lemma Reached_run cont : forall p s p',
  Reached p s -> num_run p cont = Some p' -> Reached p' (s ++ cont).
Proof.
  induction cont as [| c cont IH]; intros p s p' Hs Hrun; simpl in Hrun.
  - injection Hrun as <-. now rewrite app_nil_r.
  - destruct (num_next p c) as [q |] eqn:Hnext; [| discriminate].
    replace (s ++ c :: cont) with ((s ++ [c]) ++ cont) by now rewrite <- app_assoc.
    eapply IH; [| eassumption]. eapply Reached_step; eassumption.
Qed.

Lemma Reached_complete p s :
  Reached p s -> num_complete p = true -> NumberLiteral s.
Proof.
  destruct p; simpl; intros Hs Hc; try discriminate.
  - destruct Hs as (sg & Hsg & ->).
    replace (sg ++ [48]) with (sg ++ [48] ++ [] ++ []) by reflexivity.
    constructor; digits_side.
  - destruct Hs as (sg & d & ds & Hsg & Hd & Hz & Hds & ->).
    replace (sg ++ d :: ds) with (sg ++ (d :: ds) ++ [] ++ [])
      by (now rewrite !app_nil_r).
    constructor; digits_side.
  - destruct Hs as (sg & int & ds & Hsg & Hint & Hds & ->).
    replace (sg ++ int ++ 46 :: ds) with (sg ++ int ++ (46 :: ds) ++ [])
      by (now rewrite !app_nil_r).
    constructor; digits_side.
  - destruct Hs as (sg & int & fr & m & esg & ds & Hsg & Hint & Hfr & Hm & Hesg & Hds & ->).
    constructor; try digits_side. constructor. now constructor.
Qed.

(** A run of the scanner from the first character of a text to a complete
    phase reads a number literal. *)
Lemma number_run_sound c cont p0 p :
  number_start c = Some p0 -> num_run p0 cont = Some p -> num_complete p = true ->
  NumberLiteral (c :: cont).
Proof.
  intros Hstart Hrun Hc.
  apply (Reached_complete p); [| exact Hc].
  change (c :: cont) with ([c] ++ cont).
  eapply Reached_run; [| exact Hrun]. now apply Reached_start.
Qed.

Lemma num_run_app p a b :
  num_run p (a ++ b) =
  match num_run p a with
  | Some q => num_run q b
  | None => None
  end.
Proof.
  revert p. induction a as [| c a IH]; intros p; simpl; [reflexivity |].
  destruct (num_next p c); [apply IH | reflexivity].
Qed.

Lemma num_run_digits p ds :
  (forall d, is_digit d = true -> num_next p d = Some p) ->
  forallb is_digit ds = true -> num_run p ds = Some p.
Proof.
  intros Hp. induction ds as [| d ds IH]; simpl; [reflexivity |].
  intros [Hd Hds]%andb_true_iff. rewrite (Hp _ Hd). now apply IH.
Qed.

Lemma num_next_Int d : is_digit d = true -> num_next NpInt d = Some NpInt.
Proof. simpl. now intros ->. Qed.

Lemma num_next_Frac d : is_digit d = true -> num_next NpFrac d = Some NpFrac.
Proof. simpl. now intros ->. Qed.

Lemma num_next_Exp d : is_digit d = true -> num_next NpExp d = Some NpExp.
Proof. simpl. now intros ->. Qed.

Lemma num_run_first p q d ds :
  num_next p d = Some q ->
  (forall d, is_digit d = true -> num_next q d = Some q) ->
  forallb is_digit ds = true -> num_run p (d :: ds) = Some q.
Proof. intros Hp Hq Hds. simpl. rewrite Hp. now apply num_run_digits. Qed.

(** The integer part, after an optional sign, from the start. *)
Lemma scan_integer sg int :
  Optional (eq [45]) sg -> IntegerPart int ->
  exists c cont p0 q,
    sg ++ int = c :: cont /\ number_start c = Some p0
    /\ num_run p0 cont = Some q /\ (q = NpZero \/ q = NpInt).
Proof.
  intros [| ? <-] [| d ds Hd Hz Hds]; simpl.
  - exists 48, [], NpZero, NpZero. auto.
  - exists d, ds, NpInt, NpInt. repeat split; auto.
    + unfold number_start. apply is_digit_range in Hd.
      destruct (N.eqb_spec d 45); [lia |].
      destruct (N.eqb_spec d 48); [contradiction |].
      apply is_digit_range in Hd. now rewrite Hd.
    + apply num_run_digits; auto using num_next_Int.
  - exists 45, [48], NpMinus, NpZero. auto.
  - exists 45, (d :: ds), NpMinus, NpInt. repeat split; auto.
    apply num_run_first; auto using num_next_Int.
    simpl. destruct (N.eqb_spec d 48); [contradiction |]. now rewrite Hd.
Qed.

Lemma scan_fraction q fr :
  q = NpZero \/ q = NpInt -> Optional Fraction fr ->
  exists q', num_run q fr = Some q' /\ (q' = NpZero \/ q' = NpInt \/ q' = NpFrac).
Proof.
  intros Hq [| ? [ds [Hne Hds]]].
  - exists q. simpl. tauto.
  - exists NpFrac. split; [| tauto].
    destruct ds as [| d ds]; [contradiction |].
    apply andb_true_iff in Hds as [Hd Hds].
    change (46 :: d :: ds) with ([46] ++ d :: ds). rewrite num_run_app.
    replace (num_run q [46]) with (Some NpPoint) by (now destruct Hq as [-> | ->]).
    apply num_run_first; auto using num_next_Frac. simpl. now rewrite Hd.
Qed.

Lemma scan_exponent q ex :
  q = NpZero \/ q = NpInt \/ q = NpFrac -> Optional Exponent ex ->
  exists q', num_run q ex = Some q' /\ num_complete q' = true.
Proof.
  intros Hq [| ? [m esg ds Hm Hesg [Hne Hds]]].
  - exists q. split; [reflexivity |]. now destruct Hq as [-> | [-> | ->]].
  - exists NpExp. split; [| reflexivity].
    destruct ds as [| d ds]; [contradiction |].
    apply andb_true_iff in Hds as [Hd Hds].
    change (m :: esg ++ d :: ds) with ([m] ++ esg ++ d :: ds). rewrite num_run_app.
    replace (num_run q [m]) with (Some NpMark)
      by (apply is_exponent_mark_cases in Hm as [-> | ->];
          now destruct Hq as [-> | [-> | ->]]).
    destruct Hesg as [| ? [|]].
    + apply num_run_first; auto using num_next_Exp. simpl. now rewrite Hd.
    + simpl app. change (43 :: d :: ds) with ([43] ++ d :: ds). rewrite num_run_app.
      simpl (num_run NpMark [43]).
      apply num_run_first; auto using num_next_Exp. simpl. now rewrite Hd.
    + simpl app. change (45 :: d :: ds) with ([45] ++ d :: ds). rewrite num_run_app.
      simpl (num_run NpMark [45]).
      apply num_run_first; auto using num_next_Exp. simpl. now rewrite Hd.
Qed.

(** The scanner runs over a number literal to a complete phase. *)
Lemma number_run_complete src :
  NumberLiteral src ->
  exists c cont p0 p,
    src = c :: cont /\ number_start c = Some p0
    /\ num_run p0 cont = Some p /\ num_complete p = true.
Proof.
  intros [sg int fr ex Hsg Hint Hfr Hex].
  destruct (scan_integer sg int Hsg Hint) as (c & cont & p0 & q & Heq & Hstart & Hrun & Hq).
  destruct (scan_fraction q fr Hq Hfr) as (q' & Hrun' & Hq').
  destruct (scan_exponent q' ex Hq' Hex) as (q'' & Hrun'' & Hc).
  exists c, (cont ++ fr ++ ex), p0, q''. repeat split; auto.
  - rewrite app_assoc, Heq. reflexivity.
  - rewrite num_run_app, Hrun, num_run_app, Hrun'. exact Hrun''.
Qed.

(** ** The scanner recognises the tokens *)

Lemma lex_cons m c rest :
  lex m (c :: rest) =
  match lex_step m c with
  | Some (m', toks) =>
      match lex m' rest with
      | Some more => Some (toks ++ more)
      | None => None
      end
  | None => None
  end.
Proof. reflexivity. Qed.

Lemma emit_nil more : emit [] more = more.
Proof. now destruct more. Qed.

Lemma lex_step_to m c m' toks rest :
  lex_step m c = Some (m', toks) -> lex m (c :: rest) = emit toks (lex m' rest).
Proof. intros H. rewrite lex_cons, H. reflexivity. Qed.

Lemma structural_cases c t :
  structural c = Some t ->
  (c = 91 /\ t = TBeginArray) \/ (c = 93 /\ t = TEndArray)
  \/ (c = 123 /\ t = TBeginObject) \/ (c = 125 /\ t = TEndObject)
  \/ (c = 58 /\ t = TColon) \/ (c = 44 /\ t = TComma).
Proof.
  unfold structural.
  repeat match goal with
         | |- (if ?c =? ?k then _ else _) = _ -> _ =>
             destruct (N.eqb_spec c k) as [-> |]; [intros [= <-]; tauto |]
         end.
  discriminate.
Qed.

Lemma is_ws_cases c : is_ws c = true -> c = 9 \/ c = 10 \/ c = 13 \/ c = 32.
Proof. unfold is_ws. rewrite !orb_true_iff, !N.eqb_eq. tauto. Qed.

Lemma lex_start_ws c : is_ws c = true -> lex_start c = Some (Between, []).
Proof. unfold lex_start. now intros ->. Qed.

Lemma lex_start_structural c t :
  structural c = Some t -> lex_start c = Some (Between, [t]).
Proof.
  intros H. pose proof (structural_cases _ _ H) as Hc.
  unfold lex_start. rewrite H.
  now destruct Hc as [[-> _] | [[-> _] | [[-> _] | [[-> _] | [[-> _] | [-> _]]]]]].
Qed.

Lemma lex_start_number c p :
  number_start c = Some p -> lex_start c = Some (InNumber p [c], []).
Proof.
  intros [[-> ->] | [[-> ->] | (Hd & Hz & ->)]]%number_start_cases; try reflexivity.
  pose proof Hd as Hr. apply is_digit_range in Hr.
  unfold lex_start, is_ws, structural.
  repeat match goal with
         | |- context [?c =? ?k] => destruct (N.eqb_spec c k); [lia |]
         end.
  simpl. now rewrite Hd.
Qed.

Lemma lex_start_cases c m toks : lex_start c = Some (m, toks) -> Start c m toks.
Proof.
  unfold lex_start.
  destruct (is_ws c) eqn:Hws; [intros [= <- <-]; now constructor |].
  destruct (structural c) as [t |] eqn:Hst; [intros [= <- <-]; now constructor |].
  destruct (N.eqb_spec c 34) as [-> |]; [intros [= <- <-]; now constructor |].
  destruct (N.eqb_spec c 45) as [-> |]; [intros [= <- <-]; now constructor |].
  destruct (N.eqb_spec c 48) as [-> |]; [intros [= <- <-]; now constructor |].
  destruct (is_digit c) eqn:Hd.
  { intros [= <- <-]. constructor. unfold number_start.
    destruct (N.eqb_spec c 45); [contradiction |].
    destruct (N.eqb_spec c 48); [contradiction |]. now rewrite Hd. }
  destruct (N.eqb_spec c 110) as [-> |]; [intros [= <- <-]; now constructor |].
  destruct (N.eqb_spec c 116) as [-> |]; [intros [= <- <-]; now constructor |].
  destruct (N.eqb_spec c 102) as [-> |]; [intros [= <- <-]; now constructor |].
  discriminate.
Qed.

(** *** Numbers *)

Lemma num_next_ws c p : is_ws c = true -> num_next p c = None.
Proof.
  intros [-> | [-> | [-> | ->]]]%is_ws_cases; now destruct p.
Qed.

Lemma num_next_structural c t p : structural c = Some t -> num_next p c = None.
Proof.
  intros [[-> _] | [[-> _] | [[-> _] | [[-> _] | [[-> _] | [-> _]]]]]]%structural_cases;
    now destruct p.
Qed.

Lemma lex_number_run cont : forall p raw rest p',
  num_run p cont = Some p' ->
  lex (InNumber p raw) (cont ++ rest) = lex (InNumber p' (rev cont ++ raw)) rest.
Proof.
  induction cont as [| c cont IH]; intros p raw rest p' Hrun; simpl in Hrun.
  - now injection Hrun as <-.
  - destruct (num_next p c) as [q |] eqn:Hnext; [| discriminate].
    simpl app. rewrite (lex_step_to _ _ (InNumber q (c :: raw)) [])
      by (simpl; now rewrite Hnext).
    rewrite emit_nil, (IH _ _ _ _ Hrun). simpl rev. now rewrite <- app_assoc.
Qed.

(** At the end of the text, or before a character that does not continue
    it, a complete number is emitted and the scan goes on between tokens. *)
Lemma lex_number_boundary p raw rest :
  num_complete p = true ->
  (rest = [] \/ exists c r, rest = c :: r /\ num_next p c = None) ->
  lex (InNumber p raw) rest = emit [number_token raw] (lex Between rest).
Proof.
  intros Hc [-> | (c & r & -> & Hnext)].
  - simpl. now rewrite Hc.
  - rewrite !lex_cons. simpl lex_step. rewrite Hnext, Hc.
    destruct (lex_start c) as [[m' toks] |]; [| reflexivity].
    now destruct (lex m' r).
Qed.

Lemma lex_number_inv text : forall p raw toks,
  lex (InNumber p raw) text = Some toks ->
  exists cont rest p' toks',
    text = cont ++ rest /\ num_run p cont = Some p' /\ num_complete p' = true
    /\ toks = number_token (rev cont ++ raw) :: toks'
    /\ lex Between rest = Some toks'.
Proof.
  induction text as [| c text IH]; intros p raw toks Hlex.
  - simpl in Hlex. destruct (num_complete p) eqn:Hc; [| discriminate].
    injection Hlex as <-. exists [], [], p, []. auto.
  - rewrite lex_cons in Hlex. simpl lex_step in Hlex.
    destruct (num_next p c) as [q |] eqn:Hnext.
    + destruct (lex (InNumber q (c :: raw)) text) as [more |] eqn:Hmore; [| discriminate].
      injection Hlex as <-.
      apply IH in Hmore as (cont & rest & p' & toks' & -> & Hrun & Hc & -> & Hrest).
      exists (c :: cont), rest, p', toks'. repeat split; auto.
      * simpl. now rewrite Hnext.
      * simpl. now rewrite <- app_assoc.
    + destruct (num_complete p) eqn:Hc; [| discriminate].
      destruct (lex_start c) as [[m' toks0] |] eqn:Hstart; [| discriminate].
      destruct (lex m' text) as [more |] eqn:Hmore; [| discriminate].
      injection Hlex as <-.
      exists [], (c :: text), p, (toks0 ++ more). repeat split; auto.
      rewrite lex_cons. simpl lex_step. now rewrite Hstart, Hmore.
Qed.

(** *** Literal names *)

Lemma lex_word expected : forall tok rest,
  expected <> [] ->
  lex (InWord expected tok) (expected ++ rest) = emit [tok] (lex Between rest).
Proof.
  induction expected as [| e es IH]; intros tok rest Hne; [contradiction |].
  simpl app. destruct es as [| e' es].
  - apply lex_step_to. simpl. now rewrite N.eqb_refl.
  - rewrite (lex_step_to _ _ (InWord (e' :: es) tok) [])
      by (simpl; now rewrite N.eqb_refl).
    rewrite emit_nil. now apply IH.
Qed.

Lemma lex_word_inv expected : forall tok text toks,
  lex (InWord expected tok) text = Some toks ->
  exists rest toks',
    text = expected ++ rest /\ toks = tok :: toks' /\ lex Between rest = Some toks'.
Proof.
  induction expected as [| e es IH]; intros tok text toks Hlex.
  - destruct text; discriminate.
  - destruct text as [| c text]; [discriminate |].
    rewrite lex_cons in Hlex. simpl lex_step in Hlex.
    destruct (N.eqb_spec c e) as [-> |]; [| discriminate].
    destruct es as [| e' es].
    + destruct (lex Between text) as [more |] eqn:Hmore; [| discriminate].
      injection Hlex as <-. exists text, more. auto.
    + destruct (lex (InWord (e' :: es) tok) text) as [more |] eqn:Hmore; [| discriminate].
      injection Hlex as <-.
      apply IH in Hmore as (rest & toks' & -> & -> & Hrest).
      exists rest, toks'. auto.
Qed.

(** *** Strings *)

Lemma escape_value_not_u c v : escape_value c = Some v -> c <> 117.
Proof. now intros H ->. Qed.

Lemma lex_string_close raw val rest :
  lex (InString raw val) (34 :: rest) =
  emit [TLiteral (rev raw ++ [34]) (PString (rev val))] (lex Between rest).
Proof. reflexivity. Qed.

Lemma lex_string_plain c raw val rest :
  c <> 34 -> c <> 92 -> 32 <= c ->
  lex (InString raw val) (c :: rest) = lex (InString (c :: raw) (c :: val)) rest.
Proof.
  intros H34 H92 H32.
  rewrite (lex_step_to _ _ (InString (c :: raw) (c :: val)) []); [apply emit_nil |].
  simpl. destruct (N.eqb_spec c 34); [contradiction |].
  destruct (N.eqb_spec c 92); [contradiction |].
  destruct (N.ltb_spec c 32); [lia | reflexivity].
Qed.

Lemma lex_string_escape c v raw val rest :
  escape_value c = Some v ->
  lex (InString raw val) (92 :: c :: rest) = lex (InString (c :: 92 :: raw) (v :: val)) rest.
Proof.
  intros Hv.
  rewrite (lex_step_to _ _ (InEscape (92 :: raw) val) []) by reflexivity.
  rewrite emit_nil.
  rewrite (lex_step_to _ _ (InString (c :: 92 :: raw) (v :: val)) []); [apply emit_nil |].
  simpl. destruct (N.eqb_spec c 117) as [-> |]; [discriminate | now rewrite Hv].
Qed.

Lemma lex_string_unicode h1 h2 h3 h4 d1 d2 d3 d4 raw val rest :
  hex_value h1 = Some d1 -> hex_value h2 = Some d2 ->
  hex_value h3 = Some d3 -> hex_value h4 = Some d4 ->
  lex (InString raw val) (92 :: 117 :: h1 :: h2 :: h3 :: h4 :: rest) =
  lex (InString (h4 :: h3 :: h2 :: h1 :: 117 :: 92 :: raw)
                ((((d1 * 16 + d2) * 16 + d3) * 16 + d4) :: val)) rest.
Proof.
  intros H1 H2 H3 H4.
  rewrite (lex_step_to _ _ (InEscape (92 :: raw) val) []) by reflexivity.
  rewrite emit_nil.
  rewrite (lex_step_to _ _ (InHex (117 :: 92 :: raw) val 4 0) []) by reflexivity.
  rewrite emit_nil.
  rewrite (lex_step_to _ _ (InHex (h1 :: 117 :: 92 :: raw) val 3 d1) [])
    by (simpl; now rewrite H1).
  rewrite emit_nil.
  rewrite (lex_step_to _ _ (InHex (h2 :: h1 :: 117 :: 92 :: raw) val 2 (d1 * 16 + d2)) [])
    by (simpl; now rewrite H2).
  rewrite emit_nil.
  rewrite (lex_step_to _ _
             (InHex (h3 :: h2 :: h1 :: 117 :: 92 :: raw) val 1 ((d1 * 16 + d2) * 16 + d3)) [])
    by (simpl; now rewrite H3).
  rewrite emit_nil.
  rewrite (lex_step_to _ _
             (InString (h4 :: h3 :: h2 :: h1 :: 117 :: 92 :: raw)
                       ((((d1 * 16 + d2) * 16 + d3) * 16 + d4) :: val)) [])
    by (simpl; now rewrite H4).
  apply emit_nil.
Qed.

Lemma lex_string_chars craw cval :
  StringCharacters craw cval ->
  forall raw val rest,
    lex (InString raw val) (craw ++ 34 :: rest) =
    emit [TLiteral (rev raw ++ craw ++ [34]) (PString (rev val ++ cval))]
         (lex Between rest).
Proof.
  induction 1 as [| c craw cval H34 H92 H32 _ IH | c v craw cval Hv _ IH
                  | h1 h2 h3 h4 d1 d2 d3 d4 craw cval H1 H2 H3 H4 _ IH];
    intros raw val rest.
  - simpl app. rewrite lex_string_close. now rewrite app_nil_r.
  - simpl app. rewrite lex_string_plain by assumption.
    rewrite IH. simpl rev. now rewrite <- !app_assoc.
  - simpl app. rewrite (lex_string_escape _ _ _ _ _ Hv).
    rewrite IH. simpl rev. now rewrite <- !app_assoc.
  - simpl app. rewrite (lex_string_unicode _ _ _ _ _ _ _ _ _ _ _ H1 H2 H3 H4).
    rewrite IH. simpl rev. now rewrite <- !app_assoc.
Qed.

Lemma lex_hex_inv raw val k acc text toks :
  lex (InHex raw val (S k) acc) text = Some toks ->
  exists h d text',
    text = h :: text' /\ hex_value h = Some d
    /\ lex (match k with
            | O => InString (h :: raw) ((acc * 16 + d) :: val)
            | S _ => InHex (h :: raw) val k (acc * 16 + d)
            end) text' = Some toks.
Proof.
  destruct text as [| h text']; [discriminate |].
  rewrite lex_cons. simpl lex_step.
  destruct (hex_value h) as [d |] eqn:Hd; [| discriminate].
  intros Hlex. exists h, d, text'. repeat split; auto.
  destruct k; destruct (lex _ text') as [more |]; try discriminate;
    now injection Hlex as <-.
Qed.

Lemma lex_string_inv n : forall text, (length text <= n)%nat ->
  forall raw val toks,
    lex (InString raw val) text = Some toks ->
    exists craw cval rest toks',
      text = craw ++ 34 :: rest /\ StringCharacters craw cval
      /\ toks = TLiteral (rev raw ++ craw ++ [34]) (PString (rev val ++ cval)) :: toks'
      /\ lex Between rest = Some toks'.
Proof.
  induction n as [| n IH]; intros text Hlen raw val toks Hlex.
  { destruct text; [discriminate | simpl in Hlen; lia]. }
  destruct text as [| c text]; [discriminate |]. simpl in Hlen.
  rewrite lex_cons in Hlex. simpl lex_step in Hlex.
  destruct (N.eqb_spec c 34) as [-> | H34].
  { destruct (lex Between text) as [more |] eqn:Hmore; [| discriminate].
    injection Hlex as <-. exists [], [], text, more.
    repeat split; auto; [constructor | now rewrite app_nil_r]. }
  destruct (N.eqb_spec c 92) as [-> | H92].
  { destruct (lex (InEscape (92 :: raw) val) text) as [more |] eqn:Hmore; [| discriminate].
    injection Hlex as <-.
    destruct text as [| c2 text]; [discriminate |]. simpl in Hlen.
    rewrite lex_cons in Hmore. simpl lex_step in Hmore.
    destruct (N.eqb_spec c2 117) as [-> | H117].
    - destruct (lex (InHex (117 :: 92 :: raw) val 4 0) text) as [more' |] eqn:Hhex;
        [| discriminate].
      injection Hmore as <-.
      apply lex_hex_inv in Hhex as (h1 & d1 & t1 & -> & H1 & Hhex).
      apply lex_hex_inv in Hhex as (h2 & d2 & t2 & -> & H2 & Hhex).
      apply lex_hex_inv in Hhex as (h3 & d3 & t3 & -> & H3 & Hhex).
      apply lex_hex_inv in Hhex as (h4 & d4 & t4 & -> & H4 & Hhex).
      simpl in Hlen.
      apply IH in Hhex as (craw & cval & rest & toks' & -> & Hchars & -> & Hrest); [| lia].
      exists (92 :: 117 :: h1 :: h2 :: h3 :: h4 :: craw),
             ((((d1 * 16 + d2) * 16 + d3) * 16 + d4) :: cval), rest, toks'.
      repeat split; auto.
      + now constructor.
      + simpl. now rewrite <- !app_assoc.
    - destruct (escape_value c2) as [v |] eqn:Hv; [| discriminate].
      destruct (lex (InString (c2 :: 92 :: raw) (v :: val)) text) as [more' |] eqn:Hstr;
        [| discriminate].
      injection Hmore as <-.
      apply IH in Hstr as (craw & cval & rest & toks' & -> & Hchars & -> & Hrest); [| lia].
      exists (92 :: c2 :: craw), (v :: cval), rest, toks'.
      repeat split; auto.
      + now constructor.
      + simpl. now rewrite <- !app_assoc. }
  destruct (N.ltb_spec c 32) as [| H32]; [discriminate |].
  destruct (lex (InString (c :: raw) (c :: val)) text) as [more |] eqn:Hmore; [| discriminate].
  injection Hlex as <-.
  apply IH in Hmore as (craw & cval & rest & toks' & -> & Hchars & -> & Hrest); [| lia].
  exists (c :: craw), (c :: cval), rest, toks'.
  repeat split; auto.
  - now constructor.
  - simpl. now rewrite <- !app_assoc.
Qed.

(** *** Texts *)

Lemma Spelled_ws c toks text :
  is_ws c = true -> Spelled toks text -> Spelled toks (c :: text).
Proof.
  intros Hc [w Hw | w t s toks' rest Hw Hs Hrest].
  - constructor. unfold Whitespace in *. simpl. now rewrite Hc.
  - change (c :: w ++ s ++ rest) with ((c :: w) ++ s ++ rest).
    constructor; auto. unfold Whitespace in *. simpl. now rewrite Hc.
Qed.

Lemma Spelled_token t s toks rest :
  Spells t s -> Spelled toks rest -> Spelled (t :: toks) (s ++ rest).
Proof. intros Hs Hrest. now apply (spelled_token [] t s toks rest). Qed.

Lemma number_token_source c cont :
  number_token (rev cont ++ [c]) =
  TLiteral (c :: cont) (PNumber (JSONNumber_value (c :: cont))).
Proof.
  unfold number_token. now rewrite rev_app_distr, rev_involutive.
Qed.

(** The tokens the scanner returns spell the text. *)
Lemma lexer_sound_upto n : forall text, (length text <= n)%nat ->
  forall toks, lex Between text = Some toks -> Spelled toks text.
Proof.
  induction n as [| n IH]; intros text Hlen toks Hlex.
  { destruct text; [| simpl in Hlen; lia]. injection Hlex as <-. now constructor. }
  destruct text as [| c text].
  { injection Hlex as <-. now constructor. }
  simpl in Hlen. rewrite lex_cons in Hlex. simpl lex_step in Hlex.
  destruct (lex_start c) as [[m' toks0] |] eqn:Hstart; [| discriminate].
  destruct (lex m' text) as [more |] eqn:Hmore; [| discriminate].
  injection Hlex as <-.
  apply lex_start_cases in Hstart.
  destruct Hstart as [Hws | t Ht | -> | p Hp | -> | -> | ->]; simpl app.
  - apply Spelled_ws; [assumption |]. apply IH; [lia | assumption].
  - apply (Spelled_token t [c]); [now constructor |]. apply IH; [lia | assumption].
  - apply (lex_string_inv (length text)) in Hmore
      as (craw & cval & rest & toks' & -> & Hchars & -> & Hrest); [| lia].
    simpl rev. simpl app.
    replace (34 :: craw ++ 34 :: rest) with ((34 :: craw ++ [34]) ++ rest)
      by (simpl; now rewrite <- app_assoc).
    apply Spelled_token.
    + constructor. now constructor.
    + apply IH; [| assumption]. rewrite length_app in Hlen. simpl in Hlen. lia.
  - apply lex_number_inv in Hmore
      as (cont & rest & p' & toks' & -> & Hrun & Hc & -> & Hrest).
    rewrite number_token_source.
    change (c :: cont ++ rest) with ((c :: cont) ++ rest).
    apply Spelled_token.
    + constructor. eapply number_run_sound; eassumption.
    + apply IH; [| assumption]. rewrite length_app in Hlen. lia.
  - apply lex_word_inv in Hmore as (rest & toks' & -> & -> & Hrest).
    change (110 :: js "ull" ++ rest) with (js "null" ++ rest).
    apply Spelled_token; [constructor |].
    apply IH; [| assumption]. rewrite length_app in Hlen. lia.
  - apply lex_word_inv in Hmore as (rest & toks' & -> & -> & Hrest).
    change (116 :: js "rue" ++ rest) with (js "true" ++ rest).
    apply Spelled_token; [constructor |].
    apply IH; [| assumption]. rewrite length_app in Hlen. lia.
  - apply lex_word_inv in Hmore as (rest & toks' & -> & -> & Hrest).
    change (102 :: js "alse" ++ rest) with (js "false" ++ rest).
    apply Spelled_token; [constructor |].
    apply IH; [| assumption]. rewrite length_app in Hlen. lia.
Qed.

Lemma lexer_sound text toks : lex Between text = Some toks -> Spelled toks text.
Proof. now apply (lexer_sound_upto (length text)). Qed.

(** Where a text begins whose first token, if any, is no literal: at its
    end, or at a character that continues no number. *)
Lemma Spelled_boundary toks rest :
  Spelled toks rest ->
  match toks with TLiteral _ _ :: _ => False | _ => True end ->
  rest = [] \/ exists c r, rest = c :: r /\ forall p, num_next p c = None.
Proof.
  intros [w Hw | w t s toks' rest' Hw Hs Hrest] Hhead.
  - destruct w as [| c w]; [now left | right].
    exists c, w. split; [reflexivity |]. intros p. apply num_next_ws.
    unfold Whitespace in Hw. simpl in Hw. now apply andb_true_iff in Hw as [-> _].
  - right. destruct w as [| c w].
    + destruct Hs as [c t Ht | | | | |]; try contradiction.
      exists c, rest'. split; [reflexivity |]. intros p. eapply num_next_structural, Ht.
    + exists c, (w ++ s ++ rest'). split; [reflexivity |]. intros p. apply num_next_ws.
      unfold Whitespace in Hw. simpl in Hw. now apply andb_true_iff in Hw as [-> _].
Qed.

Lemma lex_skip_ws w rest : Whitespace w -> lex Between (w ++ rest) = lex Between rest.
Proof.
  unfold Whitespace. induction w as [| c w IH]; simpl; [reflexivity |].
  intros [Hc Hw]%andb_true_iff.
  change (lex Between (c :: w ++ rest) = lex Between rest).
  rewrite (lex_step_to _ _ Between []) by (simpl; now apply lex_start_ws).
  rewrite emit_nil. now apply IH.
Qed.

Lemma separated_cons t toks :
  separated (t :: toks) = true ->
  separated toks = true
  /\ (match t with TLiteral _ _ => True | _ => False end ->
      match toks with TLiteral _ _ :: _ => False | _ => True end).
Proof.
  destruct t; simpl; try (intros ->; tauto).
  destruct toks as [| [] toks]; simpl; try (intros ->; tauto); try tauto.
  discriminate.
Qed.

(** The scanner returns the tokens of a text, provided no two literals are
    adjacent. *)
Lemma lexer_complete toks text :
  Spelled toks text -> separated toks = true -> lex Between text = Some toks.
Proof.
  induction 1 as [w Hw | w t s toks rest Hw Hs Hrest IH]; intros Hsep.
  - rewrite <- (app_nil_r w), lex_skip_ws by assumption. reflexivity.
  - apply separated_cons in Hsep as [Hsep Hhead].
    specialize (IH Hsep).
    rewrite lex_skip_ws by assumption.
    destruct Hs as [c t Ht | | | | src Hnum | src val [craw cval Hchars]].
    + simpl app.
      rewrite (lex_step_to _ _ Between [t]) by (simpl; now apply lex_start_structural).
      now rewrite IH.
    + change (js "null" ++ rest) with (110 :: js "ull" ++ rest).
      rewrite (lex_step_to _ _ (InWord (js "ull") (TLiteral (js "null") PNull)) [])
        by reflexivity.
      rewrite emit_nil, lex_word by discriminate. now rewrite IH.
    + change (js "true" ++ rest) with (116 :: js "rue" ++ rest).
      rewrite (lex_step_to _ _ (InWord (js "rue") (TLiteral (js "true") (PBool true))) [])
        by reflexivity.
      rewrite emit_nil, lex_word by discriminate. now rewrite IH.
    + change (js "false" ++ rest) with (102 :: js "alse" ++ rest).
      rewrite (lex_step_to _ _ (InWord (js "alse") (TLiteral (js "false") (PBool false))) [])
        by reflexivity.
      rewrite emit_nil, lex_word by discriminate. now rewrite IH.
    + destruct (number_run_complete _ Hnum) as (c & cont & p0 & p & -> & Hstart & Hrun & Hc).
      simpl app.
      rewrite (lex_step_to _ _ (InNumber p0 [c]) [])
        by (simpl; now apply lex_start_number).
      rewrite emit_nil, (lex_number_run _ _ _ _ _ Hrun).
      rewrite lex_number_boundary, IH, number_token_source; [reflexivity | assumption |].
      destruct (Spelled_boundary _ _ Hrest (Hhead I)) as [-> | (c' & r & -> & Hnone)];
        [now left | right; eauto].
    + simpl app.
      rewrite (lex_step_to _ _ (InString [34] []) []) by reflexivity.
      rewrite emit_nil.
      replace ((craw ++ [34]) ++ rest) with (craw ++ 34 :: rest)
        by now rewrite <- app_assoc.
      rewrite (lex_string_chars _ _ Hchars). now rewrite IH.
Qed.

(** ** ParseJSON recognises the JSON texts *)

Lemma reduce_awaits r stack st :
  reduce r stack = Some st -> awaits_literal (fst st) = false.
Proof.
  destruct stack as [| [done | props [k |]] below]; simpl; intros [= <-]; reflexivity.
Qed.

Lemma parse_step_literal st src p st' :
  parse_step st (TLiteral src p) = Some st' ->
  awaits_literal (fst st) = true /\ awaits_literal (fst st') = false.
Proof.
  destruct st as [e stack].
  destruct e; destruct stack as [| [done | props [k |]] below]; destruct p; simpl;
    intros H; try discriminate;
    try (split; [reflexivity |]; eapply reduce_awaits; eassumption);
    try (apply (reduce_awaits _ []) in H; now split);
    try (injection H as <-; now split).
Qed.

Lemma accepted_separated toks : forall st out,
  parse_tokens st toks = Some out ->
  separated toks = true
  /\ (awaits_literal (fst st) = false ->
      match toks with TLiteral _ _ :: _ => False | _ => True end).
Proof.
  induction toks as [| t toks IH]; intros st out Hrun; [now split |].
  rewrite parse_tokens_cons in Hrun.
  destruct (parse_step st t) as [st' |] eqn:Hstep; [| discriminate].
  destruct (IH _ _ Hrun) as [Hsep Hhead].
  destruct t as [| | | | | | src p]; try (split; [exact Hsep | trivial]).
  apply parse_step_literal in Hstep as [Hst Hst'].
  split.
  - specialize (Hhead Hst'). simpl. now destruct toks as [| [] toks].
  - intros Hno. congruence.
Qed.

(** [ParseJSON] returns the parse record of a text exactly when the text is
    a JSON text with that record. *)
Lemma ParseJSON_correct text r : ParseJSON text = Some r <-> JSONText text r.
Proof.
  unfold ParseJSON, JSONText. split.
  - destruct (lex Between text) as [toks |] eqn:Hlex; [| discriminate].
    intros Hparse. exists toks. split; [now apply lexer_sound | now apply parser_sound].
  - intros (toks & Hspelled & Hvalue).
    pose proof (parser_complete _ _ Hvalue) as Hparse.
    destruct (accepted_separated _ _ _ Hparse) as [Hsep _].
    now rewrite (lexer_complete _ _ Hspelled Hsep).
Qed.

(** Some texts the grammar excludes: a leading zero, a trailing comma, a
    fraction without digits, a control character inside a string. *)
Example not_well_formed_samples :
  ~ well_formed (js "01") /\ ~ well_formed (js "[1,]") /\ ~ well_formed (js "1.")
  /\ ~ well_formed [34; 9; 34].
Proof.
  repeat split; intros [r Hr%ParseJSON_correct]; vm_compute in Hr; discriminate Hr.
Qed.

(** Of several members with one name the last gives the property its value,
    and integer-index keys come first. *)
Example duplicate_and_index_keys :
  JSON_parse (js "{" ++ quoted "b" ++ js ":true," ++ quoted "1" ++ js ":null,"
                ++ quoted "b" ++ js ":false}") None
  = Returned (JObject [(js "1", JNull); (js "b", JBool false)]).
Proof. vm_compute. reflexivity. Qed.

(** ** Induction over parse records *)

Lemma ParseRecord_nested_ind (P : ParseRecord -> Prop) :
  (forall src p, P (PRPrimitive src p)) ->
  (forall elements, Forall P elements -> P (PRArray elements)) ->
  (forall entries, Forall (fun e => P (snd e)) entries -> P (PRObject entries)) ->
  forall r, P r.
Proof.
  intros Hprim Harr Hobj.
  fix IH 1.
  intros [src p | elements | entries].
  - apply Hprim.
  - apply Harr. induction elements as [| r rest IHrest]; constructor; [apply IH | exact IHrest].
  - apply Hobj. induction entries as [| [k r] rest IHrest]; constructor; [apply IH | exact IHrest].
Qed.

(** ** The reviver pass, unfolded *)

Lemma InternalizeJSONProperty_array reviver name elements :
  InternalizeJSONProperty reviver name (PRArray elements) =
  (vs ← internalize_elements reviver 0 elements;
   reviver name (JArray vs) {| source := None |}).
Proof.
  simpl.
  assert (E : forall i,
    (fix each (i0 : N) (rs : list ParseRecord) {struct rs} : Outcome (list JSValue) :=
       match rs with
       | [] => Returned []
       | r :: rest =>
           v ← InternalizeJSONProperty reviver (ToString_N i0) r;
           vs ← each (i0 + 1) rest;
           Returned (v :: vs)
       end) i elements = internalize_elements reviver i elements).
  { induction elements as [| r rest IH]; intros i; simpl; [reflexivity |].
    destruct (InternalizeJSONProperty reviver (ToString_N i) r); simpl; [| reflexivity].
    now rewrite IH. }
  now rewrite E.
Qed.

Lemma InternalizeJSONProperty_object reviver name entries :
  InternalizeJSONProperty reviver name (PRObject entries) =
  (ps ← internalize_entries reviver entries;
   reviver name (JObject ps) {| source := None |}).
Proof.
  simpl.
  assert (E :
    (fix each (es : list (JSString * ParseRecord)) : Outcome (list (JSString * JSValue)) :=
       match es with
       | [] => Returned []
       | (k, r) :: rest =>
           v ← InternalizeJSONProperty reviver k r;
           ps ← each rest;
           Returned (match v with JUndefined => ps | _ => (k, v) :: ps end)
       end) entries = internalize_entries reviver entries).
  { induction entries as [| [k r] rest IH]; simpl; [reflexivity |].
    destruct (InternalizeJSONProperty reviver k r); simpl; [| reflexivity].
    now rewrite IH. }
  now rewrite E.
Qed.

(** ** parseJSON *)

Lemma record_value_defined r : record_value r <> JUndefined.
Proof. destruct r as [src [| b | x | s] | elements | entries]; discriminate. Qed.

Lemma integer_free_not_integer v :
  integer_free v = true -> Number_isInteger v = false.
Proof.
  destruct v; simpl; try reflexivity.
  now intros ->%negb_true_iff.
Qed.

Lemma revive_non_integer key v context :
  Number_isInteger v = false -> revive key v context = Returned v.
Proof. unfold revive. now intros ->. Qed.

Lemma internalize_elements_integer_free elements :
  Forall (fun r => forall name, integer_free (record_value r) = true ->
            InternalizeJSONProperty revive name r = Returned (record_value r)) elements ->
  forallb integer_free (map record_value elements) = true ->
  forall i, internalize_elements revive i elements = Returned (map record_value elements).
Proof.
  induction 1 as [| r rest Hr _ IH]; intros Hfree i; simpl in *; [reflexivity |].
  apply andb_true_iff in Hfree as [Hhead Hrest].
  rewrite (Hr _ Hhead). simpl. now rewrite (IH Hrest).
Qed.

Lemma internalize_entries_integer_free entries :
  Forall (fun e => forall name, integer_free (record_value (snd e)) = true ->
            InternalizeJSONProperty revive name (snd e) = Returned (record_value (snd e)))
         entries ->
  forallb (fun p => integer_free (snd p))
          (map (fun e => (fst e, record_value (snd e))) entries) = true ->
  internalize_entries revive entries =
  Returned (map (fun e => (fst e, record_value (snd e))) entries).
Proof.
  induction 1 as [| [k r] rest Hr _ IH]; intros Hfree; simpl in *; [reflexivity |].
  apply andb_true_iff in Hfree as [Hhead Hrest].
  rewrite (Hr _ Hhead). simpl. rewrite (IH Hrest). simpl.
  pose proof (record_value_defined r) as Hdef.
  now destruct (record_value r).
Qed.

(** On a record none of whose leaves is integer-valued the reviver pass
    rebuilds the value unchanged. *)
Lemma InternalizeJSONProperty_integer_free r :
  forall name, integer_free (record_value r) = true ->
    InternalizeJSONProperty revive name r = Returned (record_value r).
Proof.
  induction r as [src p | elements IH | entries IH] using ParseRecord_nested_ind;
    intros name Hfree.
  - simpl. now apply revive_non_integer, integer_free_not_integer.
  - rewrite InternalizeJSONProperty_array.
    simpl in Hfree. now rewrite (internalize_elements_integer_free _ IH Hfree).
  - rewrite InternalizeJSONProperty_object.
    simpl in Hfree. now rewrite (internalize_entries_integer_free _ IH Hfree).
Qed.

(** ** The reviver pass on a finite stack *)

Lemma internalize_elements_pass reviver elements : forall i,
  internalize_elements reviver i elements =
  elements_pass (InternalizeJSONProperty reviver) i elements.
Proof.
  induction elements as [| r rest IH]; intros i; simpl; [reflexivity |].
  now rewrite IH.
Qed.

Lemma internalize_entries_pass reviver entries :
  internalize_entries reviver entries =
  entries_pass (InternalizeJSONProperty reviver) entries.
Proof.
  induction entries as [| [k r] rest IH]; simpl; [reflexivity |].
  now rewrite IH.
Qed.

Lemma InternalizeJSONProperty_within_unfold room reviver name r :
  InternalizeJSONProperty_within (S room) reviver name r =
  match r with
  | PRPrimitive src p => reviver name (prim p) {| source := Some src |}
  | PRArray elements =>
      vs ← elements_pass (InternalizeJSONProperty_within room reviver) 0 elements;
      reviver name (JArray vs) {| source := None |}
  | PRObject entries =>
      ps ← entries_pass (InternalizeJSONProperty_within room reviver) entries;
      reviver name (JObject ps) {| source := None |}
  end.
Proof. destruct r; reflexivity. Qed.

Lemma elements_pass_ext (f g : JSString -> ParseRecord -> Outcome JSValue) elements :
  Forall (fun r => forall name, f name r = g name r) elements ->
  forall i, elements_pass f i elements = elements_pass g i elements.
Proof.
  induction 1 as [| r rest Hr _ IH]; intros i; simpl; [reflexivity |].
  now rewrite Hr, IH.
Qed.

Lemma entries_pass_ext (f g : JSString -> ParseRecord -> Outcome JSValue) entries :
  Forall (fun e => forall name, f name (snd e) = g name (snd e)) entries ->
  entries_pass f entries = entries_pass g entries.
Proof.
  induction 1 as [| [k r] rest Hr _ IH]; simpl in *; [reflexivity |].
  now rewrite Hr, IH.
Qed.

Lemma max_depth_bound {A} (f : A -> nat) (l : list A) (n : nat) :
  (fold_right Nat.max O (map f l) <= n)%nat -> Forall (fun a => (f a <= n)%nat) l.
Proof.
  induction l as [| a l IH]; simpl; intros H; constructor; [lia | apply IH; lia].
Qed.

(** With room for the nesting of the record, the walk is the one of the
    standard. *)
Lemma InternalizeJSONProperty_within_enough reviver r : forall stack name,
  (depth r <= stack)%nat ->
  InternalizeJSONProperty_within stack reviver name r =
  InternalizeJSONProperty reviver name r.
Proof.
  induction r as [src p | elements IH | entries IH] using ParseRecord_nested_ind;
    intros [| room] name Hdepth; simpl in Hdepth; try lia.
  - reflexivity.
  - rewrite InternalizeJSONProperty_within_unfold, InternalizeJSONProperty_array,
      internalize_elements_pass.
    apply le_S_n, max_depth_bound in Hdepth.
    rewrite (elements_pass_ext (InternalizeJSONProperty_within room reviver)
               (InternalizeJSONProperty reviver)); [reflexivity |].
    clear name. induction elements as [| r rest IHrest]; constructor.
    + intros name. inversion IH; inversion Hdepth; subst. auto.
    + inversion IH; inversion Hdepth; subst. auto.
  - rewrite InternalizeJSONProperty_within_unfold, InternalizeJSONProperty_object,
      internalize_entries_pass.
    apply le_S_n, max_depth_bound in Hdepth.
    rewrite (entries_pass_ext (InternalizeJSONProperty_within room reviver)
               (InternalizeJSONProperty reviver)); [reflexivity |].
    clear name. induction entries as [| e rest IHrest]; constructor.
    + intros name. inversion IH; inversion Hdepth; subst. auto.
    + inversion IH; inversion Hdepth; subst. auto.
Qed.

Lemma elements_pass_or_RangeError (f g : JSString -> ParseRecord -> Outcome JSValue) :
  (forall name r, f name r = g name r \/ f name r = Thrown RangeError) ->
  forall elements i,
    elements_pass f i elements = elements_pass g i elements
    \/ elements_pass f i elements = Thrown RangeError.
Proof.
  intros Hfg. induction elements as [| r rest IH]; intros i; simpl; [now left |].
  destruct (Hfg (ToString_N i) r) as [-> | ->]; [| now right].
  destruct (g (ToString_N i) r) as [v | e]; simpl; [| now left].
  destruct (IH (i + 1)) as [-> | ->]; [now left | now right].
Qed.

Lemma entries_pass_or_RangeError (f g : JSString -> ParseRecord -> Outcome JSValue) :
  (forall name r, f name r = g name r \/ f name r = Thrown RangeError) ->
  forall entries,
    entries_pass f entries = entries_pass g entries
    \/ entries_pass f entries = Thrown RangeError.
Proof.
  intros Hfg. induction entries as [| [k r] rest IH]; simpl; [now left |].
  destruct (Hfg k r) as [-> | ->]; [| now right].
  destruct (g k r) as [v | e]; simpl; [| now left].
  destruct IH as [-> | ->]; [now left | now right].
Qed.

(** Whatever the room, the walk completes as the one of the standard does,
    or throws a RangeError. *)
Lemma InternalizeJSONProperty_within_cases reviver stack : forall name r,
  InternalizeJSONProperty_within stack reviver name r =
    InternalizeJSONProperty reviver name r
  \/ InternalizeJSONProperty_within stack reviver name r = Thrown RangeError.
Proof.
  induction stack as [| room IH]; intros name r; [now right |].
  rewrite InternalizeJSONProperty_within_unfold.
  destruct r as [src p | elements | entries].
  - now left.
  - rewrite InternalizeJSONProperty_array, internalize_elements_pass.
    destruct (elements_pass_or_RangeError _ _ IH elements 0) as [-> | ->];
      [now left | now right].
  - rewrite InternalizeJSONProperty_object, internalize_entries_pass.
    destruct (entries_pass_or_RangeError _ _ IH entries) as [-> | ->];
      [now left | now right].
Qed.

Lemma parseJSON_within_enough stack json r :
  ParseJSON json = Some r -> (depth r <= stack)%nat ->
  parseJSON_within stack json = parseJSON json.
Proof.
  intros Hparse Hdepth.
  unfold parseJSON_within, JSON_parse_within, parseJSON, JSON_parse. rewrite Hparse.
  now apply InternalizeJSONProperty_within_enough.
Qed.

Lemma parseJSON_within_cases stack json :
  parseJSON_within stack json = parseJSON json
  \/ (parseJSON_within stack json = Thrown RangeError
      /\ exists r, ParseJSON json = Some r /\ (stack < depth r)%nat).
Proof.
  unfold parseJSON_within, JSON_parse_within, parseJSON, JSON_parse.
  destruct (ParseJSON json) as [r |] eqn:Hparse; [| now left].
  destruct (Nat.le_gt_cases (depth r) stack) as [Hle | Hgt].
  - left. now apply InternalizeJSONProperty_within_enough.
  - destruct (InternalizeJSONProperty_within_cases revive stack [] r) as [-> | ->];
      [now left | right; eauto].
Qed.

(** C1. For the document [{"a": 123456789012345678}], [parseJSON] returns an
    object whose value at key [a] is the BigInt 123456789012345678; the
    plain [JSON.parse] of the same text holds the Number 123456789012345680
    there, the binary64 value nearest to the literal. *)
Theorem parseJSON_large_integer :
  parseJSON doc_large_integer =
    Returned (JObject [(js "a", JBigInt 123456789012345678)])
  /\ exists x,
       JSON_parse doc_large_integer None = Returned (JObject [(js "a", JNumber x)])
       /\ integer_value x = Some 123456789012345680%Z.
Proof.
  split; [vm_compute; reflexivity |].
  eexists. split; vm_compute; reflexivity.
Qed.

(** C5. A text that is not well-formed JSON makes [parseJSON] throw a
    SyntaxError, and nothing is built: the reviver, whichever it is, is not
    run on any part of the text. *)
Theorem parseJSON_malformed_throws (json : JSString) :
  ~ well_formed json ->
  parseJSON json = Thrown SyntaxError
  /\ forall reviver, JSON_parse json reviver = Thrown SyntaxError.
Proof.
  unfold well_formed, parseJSON, JSON_parse. intros Hbad.
  destruct (ParseJSON json) as [r |] eqn:E.
  - exfalso. apply Hbad. exists r. now apply ParseJSON_correct.
  - now split.
Qed.

Lemma parseJSON_malformed_throws_witness :
  parseJSON doc_unclosed = Thrown SyntaxError
  /\ forall reviver, JSON_parse doc_unclosed reviver = Thrown SyntaxError.
Proof.
  apply (parseJSON_malformed_throws doc_unclosed).
  intros [r Hr]. apply ParseJSON_correct in Hr. vm_compute in Hr. discriminate Hr.
Defined.

(** C6. For a well-formed JSON text none of whose leaves has an
    integer-valued Number (the leaves are strings, booleans, [null] and
    Numbers that are no integers once rounded to binary64), and whose
    nesting the stack of the reviver walk has room for, [parseJSON] returns
    what the standard [JSON.parse] returns: the value of the text. *)
Theorem parseJSON_agrees_with_JSON_parse
    (stack : nat) (json : JSString) (r : ParseRecord) :
  JSONText json r ->
  integer_free (record_value r) = true ->
  (depth r <= stack)%nat ->
  parseJSON_within stack json = JSON_parse json None
  /\ JSON_parse json None = Returned (record_value r).
Proof.
  intros Htext%ParseJSON_correct Hfree Hdepth.
  unfold parseJSON_within, JSON_parse_within, JSON_parse. rewrite Htext.
  split; [| reflexivity].
  rewrite InternalizeJSONProperty_within_enough by exact Hdepth.
  now apply InternalizeJSONProperty_integer_free.
Qed.

Lemma parseJSON_agrees_with_JSON_parse_witness :
  parseJSON_within 3 doc_no_integer = JSON_parse doc_no_integer None
  /\ JSON_parse doc_no_integer None = Returned (record_value doc_no_integer_record).
Proof.
  apply (parseJSON_agrees_with_JSON_parse 3 doc_no_integer doc_no_integer_record).
  - apply ParseJSON_correct. vm_compute. reflexivity.
  - vm_compute. reflexivity.
  - vm_compute. lia.
Defined.

(** The text [0.99999999999999999999] is a single number that is no
    integer, and [JSON.parse] returns the Number 1 for it, the nearest
    binary64 value; [parseJSON] throws on it, whatever the stack. And on
    three nested arrays, which have no leaf at all, [parseJSON] throws a
    RangeError when the stack has room for two activations, where
    [JSON.parse] returns the arrays. *)
Lemma parseJSON_agrees_with_JSON_parse_counterexample :
  well_formed doc_rounds_to_one
  /\ denotes_integer doc_rounds_to_one = false
  /\ JSON_parse doc_rounds_to_one None = Returned (JNumber (JSONNumber_value (js "1")))
  /\ parseJSON doc_rounds_to_one = Thrown SyntaxError
  /\ (forall stack, exists e, parseJSON_within stack doc_rounds_to_one = Thrown e)
  /\ JSON_parse doc_nested None = Returned (JArray [JArray [JArray []]])
  /\ parseJSON_within 2 doc_nested = Thrown RangeError.
Proof.
  split; [| split; [| split; [| split; [| split; [| split]]]]];
    try (vm_compute; reflexivity).
  - eexists. apply ParseJSON_correct. vm_compute. reflexivity.
  - intros [| stack]; eexists; vm_compute; reflexivity.
Qed.

(** C10. The texts [{"a": 1.0}] and [{"a": 1e2}] are well-formed JSON, and
    the standard parse holds the integral Numbers 1 and 100 at [a]; on both
    [parseJSON] throws (a SyntaxError, from the BigInt conversion of the
    literal's source text) instead of returning a value. *)
Theorem parseJSON_integral_literal_throws :
  (well_formed doc_one_point_zero
   /\ (exists x, JSON_parse doc_one_point_zero None = Returned (JObject [(js "a", JNumber x)])
                 /\ integer_value x = Some 1%Z)
   /\ parseJSON doc_one_point_zero = Thrown SyntaxError)
  /\ (well_formed doc_1e2
      /\ (exists x, JSON_parse doc_1e2 None = Returned (JObject [(js "a", JNumber x)])
                    /\ integer_value x = Some 100%Z)
      /\ parseJSON doc_1e2 = Thrown SyntaxError).
Proof.
  split; (split; [| split]).
  - eexists. apply ParseJSON_correct. vm_compute. reflexivity.
  - eexists. split; vm_compute; reflexivity.
  - vm_compute. reflexivity.
  - eexists. apply ParseJSON_correct. vm_compute. reflexivity.
  - eexists. split; vm_compute; reflexivity.
  - vm_compute. reflexivity.
Qed.

(** The mechanism behind C10: on a primitive whose Number value is an
    integer the reviver returns the BigInt conversion of the source text,
    which throws when that text is not an integer literal. *)
Lemma revive_integral key x src :
  integral x = true ->
  revive key (JNumber x) {| source := Some src |} = BigInt (Some src).
Proof. unfold revive. simpl. now intros ->. Qed.

(** The hypothesis of C6 is on the parsed values: a literal that is no
    integer but whose nearest Number is one is treated as an integer. *)
Example parseJSON_rounds_to_one :
  JSON_parse doc_rounds_to_one None = Returned (JNumber (JSONNumber_value (js "1")))
  /\ parseJSON doc_rounds_to_one = Thrown SyntaxError.
Proof. split; vm_compute; reflexivity. Qed.

(** Every integer leaf is converted from its own source text. *)
Example parseJSON_each_leaf_its_own_digits :
  parseJSON (js "[1, -20, 9007199254740993]") =
  Returned (JArray [JBigInt 1; JBigInt (-20); JBigInt 9007199254740993]).
Proof. vm_compute. reflexivity. Qed.

(** ** logAndThrow, get, post *)

Section PlatformFacts.

Variable Net : Type.
Variable transport : URLOrString -> option RequestInit -> Net -> Outcome Response * Net.

(** [get] is the transport's answer followed by the status check. *)
Lemma get_unfold url options w :
  get Net transport url options w =
  let config := config_at Net options w in
  let w' := {| console := console w; heap := heap w;
               net := snd (transport url config (net w));
               sent := sent w ++ [(url, config)] |} in
  match fst (transport url config (net w)) with
  | Returned response =>
      if ok response then (Returned response, w')
      else (Thrown (Error (ToString_N (status response) ++ js " could not get URL "
                             ++ ToString_url url)), w')
  | Thrown e => (Thrown e, w')
  end.
Proof.
  unfold get, fetch, mbind, JS_bind, throw, mret, JS_ret. cbv zeta.
  destruct (transport url (config_at Net options w) (net w)) as [[response | e] n];
    cbn [fst snd]; [| reflexivity].
  now destruct (ok response).
Qed.

(** [post] on an object whose [method] can be assigned is the write to the
    configuration object, the transport's answer to the configuration as
    written, and the status check. *)
Lemma post_unfold url options o w :
  heap w !! options = Some o ->
  assignable (js "method") o = true ->
  post Net transport url options w =
  let config := Some (with_POST o) in
  let w' := {| console := console w; heap := <[options := with_POST o]> (heap w);
               net := snd (transport url config (net w));
               sent := sent w ++ [(url, config)] |} in
  match fst (transport url config (net w)) with
  | Returned response =>
      if ok response then (Returned response, w')
      else (Thrown (Error (ToString_N (status response) ++ js " could not post URL "
                             ++ ToString_url url)), w')
  | Thrown e => (Thrown e, w')
  end.
Proof.
  intros Ho Hassign.
  unfold post, fetch, set_property, config_at, mbind, JS_bind, throw, mret, JS_ret.
  rewrite Ho, Hassign. cbn [heap net sent console option_bind]. cbv zeta.
  rewrite lookup_insert_eq. fold (with_POST o).
  destruct (transport url (Some (with_POST o)) (net w)) as [[response | e] n];
    cbn [fst snd]; [| reflexivity].
  now destruct (ok response).
Qed.

(** [post] on a reference that refuses the assignment throws the TypeError
    of the assignment and does nothing else. *)
Lemma post_refused url options w :
  refuses_POST options w -> post Net transport url options w = (Thrown TypeError, w).
Proof.
  unfold refuses_POST, post, set_property, mbind, JS_bind.
  destruct (heap w !! options) as [o |]; [intros -> |]; reflexivity.
Qed.

Lemma assignable_or_refused options (w : World Net) :
  (exists o, heap w !! options = Some o /\ assignable (js "method") o = true)
  \/ refuses_POST options w.
Proof.
  unfold refuses_POST. destruct (heap w !! options) as [o |]; [| now right].
  destruct (assignable (js "method") o) eqn:E; [left; eauto | now right].
Qed.

Lemma contains_prefix (s rest : JSString) : contains s (s ++ rest).
Proof. exists [], rest. reflexivity. Qed.

Lemma contains_suffix (s before : JSString) : contains s (before ++ s).
Proof. exists before, []. now rewrite app_nil_r. Qed.

Lemma ok_range response : ok response = true <-> 200 <= status response <= 299.
Proof.
  unfold ok. rewrite andb_true_iff, !N.leb_le. reflexivity.
Qed.

Lemma status_checked_intro phrase url response :
  status_checked phrase url response
    (if ok response then Returned response
     else Thrown (Error (ToString_N (status response) ++ phrase ++ ToString_url url))).
Proof.
  unfold status_checked. destruct (ok response) eqn:Hok.
  - split; [reflexivity |]. intros Hout. now apply ok_range in Hok.
  - split.
    + intros Hin%ok_range. congruence.
    + intros _. simpl. split; [reflexivity |]. split.
      * apply contains_prefix.
      * rewrite app_assoc. apply contains_suffix.
Qed.

(** C4. [logAndThrow message] writes [message] to the error log once, leaves
    the rest of the world as it was, and completes by throwing an Error
    whose message is [message]; it returns no value. *)
Theorem logAndThrow_logs_once_then_throws (message : JSString) (w : World Net) :
  logAndThrow message w =
    (Thrown (Error message),
     {| console := console w ++ [message]; heap := heap w; net := net w;
        sent := sent w |})
  /\ forall v : never, fst (logAndThrow message w) <> Returned v.
Proof.
  split; [reflexivity |]. intros [].
Qed.

(** C3. When the transport answers [get] with a response, [get] returns
    that response if its status is in the success range 200-299; otherwise
    it throws an Error whose message contains the status code and the
    requested address. *)
Theorem get_checks_status url options w response n :
  transport url (config_at Net options w) (net w) = (Returned response, n) ->
  status_checked (js " could not get URL ") url response
    (fst (get Net transport url options w)).
Proof.
  intros Hanswer. rewrite get_unfold. cbv zeta. rewrite Hanswer. cbn [fst snd].
  pose proof (status_checked_intro (js " could not get URL ") url response) as H.
  now destruct (ok response).
Qed.

(** C7. [get] hands the transport the address and the caller's
    configuration exactly as it stands at the call, and changes no field of
    any configuration object. *)
Theorem get_passes_configuration_through url options w :
  sent (snd (get Net transport url options w)) = sent w ++ [(url, config_at Net options w)]
  /\ heap (snd (get Net transport url options w)) = heap w.
Proof.
  rewrite get_unfold. cbv zeta.
  destruct (fst (transport url (config_at Net options w) (net w))) as [response | e];
    [destruct (ok response) |]; now split.
Qed.

(** C2. Whatever method the configuration object [o] names, if its
    [method] can be assigned the request [post] sends carries the method
    POST, the other fields being those of [o]; and a response of the
    transport goes through the same status check as in [get]. *)
Theorem post_forces_POST url options o w :
  heap w !! options = Some o ->
  assignable (js "method") o = true ->
  sent (snd (post Net transport url options w)) = sent w ++ [(url, Some (with_POST o))]
  /\ fields (with_POST o) !! js "method" = Some (JString (js "POST"))
  /\ (forall name, name <> js "method" -> fields (with_POST o) !! name = fields o !! name)
  /\ (forall response,
        fst (transport url (Some (with_POST o)) (net w)) = Returned response ->
        status_checked (js " could not post URL ") url response
          (fst (post Net transport url options w))).
Proof.
  intros Ho Hassign. rewrite (post_unfold _ _ _ _ Ho Hassign). cbv zeta.
  split; [| split; [| split]].
  - destruct (fst (transport url (Some (with_POST o)) (net w))) as [response | e];
      [destruct (ok response) |]; reflexivity.
  - apply lookup_insert_eq.
  - intros name Hname. now apply lookup_insert_ne.
  - intros response ->.
    pose proof (status_checked_intro (js " could not post URL ") url response) as H.
    now destruct (ok response).
Qed.

(** C8. A call of [get], and a call of [post] on a configuration whose
    [method] can be assigned, makes a single attempt: the transport is
    invoked exactly once, a rejection of the transport is the exception of
    the call, unchanged, and a response with a failing status makes the call
    throw without a second invocation. A call of [post] on a reference that
    refuses the assignment throws the TypeError of the assignment and does
    not invoke the transport. *)
Theorem get_post_single_attempt url w :
  (forall options,
     single_attempt (url, config_at Net options w)
       (transport url (config_at Net options w) (net w)) w
       (get Net transport url options w))
  /\ (forall options o,
        heap w !! options = Some o -> assignable (js "method") o = true ->
        single_attempt (url, Some (with_POST o))
          (transport url (Some (with_POST o)) (net w)) w
          (post Net transport url options w))
  /\ (forall options,
        refuses_POST options w ->
        post Net transport url options w = (Thrown TypeError, w)).
Proof.
  unfold single_attempt. split; [| split].
  - intros options. rewrite get_unfold. cbv zeta.
    destruct (transport url (config_at Net options w) (net w)) as [[response | e] n];
      cbn [fst snd]; [destruct (ok response) |]; cbn [fst snd sent net]; eauto.
  - intros options o Ho Hassign. rewrite (post_unfold _ _ _ _ Ho Hassign). cbv zeta.
    destruct (transport url (Some (with_POST o)) (net w)) as [[response | e] n];
      cbn [fst snd]; [destruct (ok response) |]; cbn [fst snd sent net]; eauto.
  - intros options. apply post_refused.
Qed.


End PlatformFacts.

(** ** The properties on the sample inputs *)

Lemma get_checks_status_witness :
  status_checked (js " could not get URL ") sample_url
    {| status := 404; statusText := []; body := [] |}
    (fst (get nat (answering 404) sample_url None sample_world)).
Proof.
  apply (get_checks_status nat (answering 404) sample_url None sample_world _ 1%nat).
  reflexivity.
Defined.

Example get_200_returns_response :
  fst (get nat (answering 200) sample_url None sample_world) =
  Returned {| status := 200; statusText := []; body := [] |}.
Proof. vm_compute. reflexivity. Qed.

Example get_404_message :
  fst (get nat (answering 404) sample_url None sample_world) =
  Thrown (Error (js "404 could not get URL https://api.explorer.aleo.org/v1")).
Proof. vm_compute. reflexivity. Qed.

Lemma post_forces_POST_witness :
  sent (snd (post nat (answering 500) sample_url 1%positive sample_world)) =
    sent sample_world ++ [(sample_url, Some (with_POST sample_config))]
  /\ fields (with_POST sample_config) !! js "method" = Some (JString (js "POST"))
  /\ (forall name, name <> js "method" ->
        fields (with_POST sample_config) !! name = fields sample_config !! name)
  /\ (forall response,
        fst (answering 500 sample_url (Some (with_POST sample_config)) O)
          = Returned response ->
        status_checked (js " could not post URL ") sample_url response
          (fst (post nat (answering 500) sample_url 1%positive sample_world))).
Proof.
  apply (post_forces_POST nat (answering 500) sample_url 1%positive sample_config
           sample_world).
  - vm_compute. reflexivity.
  - vm_compute. reflexivity.
Defined.

(** On a frozen configuration object that names the method GET, [post]
    throws the TypeError of the assignment and sends no request: none with
    the method POST. *)
Lemma post_forces_POST_counterexample :
  heap frozen_world !! 1%positive = Some frozen_config
  /\ fields frozen_config !! js "method" = Some (JString (js "GET"))
  /\ fst (post nat (answering 200) sample_url 1%positive frozen_world) = Thrown TypeError
  /\ sent (snd (post nat (answering 200) sample_url 1%positive frozen_world)) = []
  /\ sent (snd (post nat (answering 200) sample_url 1%positive frozen_world))
       <> sent frozen_world ++ [(sample_url, Some (with_POST frozen_config))].
Proof.
  repeat split; try (vm_compute; reflexivity).
  rewrite (post_refused nat (answering 200)); [discriminate | vm_compute; reflexivity].
Qed.

Example post_overrides_GET :
  fields sample_config !! js "method" = Some (JString (js "GET"))
  /\ exists config,
       sent (snd (post nat (answering 200) sample_url 1%positive sample_world)) =
         [(sample_url, Some config)]
       /\ fields config !! js "method" = Some (JString (js "POST"))
       /\ fields config !! js "body" = Some (JString (js "x")).
Proof.
  split; [vm_compute; reflexivity |].
  exists (with_POST sample_config). repeat split; vm_compute; reflexivity.
Qed.

Lemma get_post_single_attempt_witness :
  single_attempt (sample_url, None)
    (rejecting (Rejection (js "offline")) sample_url None O) empty_world
    (get nat (rejecting (Rejection (js "offline"))) sample_url None empty_world)
  /\ single_attempt (sample_url, Some (with_POST sample_config))
       (rejecting (Rejection (js "offline")) sample_url
          (Some (with_POST sample_config)) O) sample_world
       (post nat (rejecting (Rejection (js "offline"))) sample_url 1%positive
          sample_world)
  /\ post nat (rejecting (Rejection (js "offline"))) sample_url 1%positive frozen_world
     = (Thrown TypeError, frozen_world).
Proof.
  split; [| split].
  - apply (proj1 (get_post_single_attempt nat (rejecting (Rejection (js "offline")))
                    sample_url empty_world) None).
  - apply (proj1 (proj2 (get_post_single_attempt nat
                           (rejecting (Rejection (js "offline"))) sample_url
                           sample_world)) 1%positive sample_config);
      vm_compute; reflexivity.
  - apply (proj2 (proj2 (get_post_single_attempt nat
                           (rejecting (Rejection (js "offline"))) sample_url
                           frozen_world)) 1%positive).
    vm_compute. reflexivity.
Defined.

(** On a frozen configuration object [post] does not invoke the transport
    (which would have answered with a response, status 200) and throws a
    TypeError, which is neither an answer of the transport nor the Error of
    the status check. *)
Lemma get_post_single_attempt_counterexample :
  sent (snd (post nat (answering 200) sample_url 1%positive frozen_world)) = []
  /\ net (snd (post nat (answering 200) sample_url 1%positive frozen_world)) = O
  /\ fst (post nat (answering 200) sample_url 1%positive frozen_world) = Thrown TypeError
  /\ fst (answering 200 sample_url (Some frozen_config) O) = Returned success.
Proof. repeat split; vm_compute; reflexivity. Qed.

Example get_rejection_propagates :
  get nat (rejecting (Rejection (js "offline"))) sample_url None sample_world =
  (Thrown (Rejection (js "offline")),
   {| console := []; heap := heap sample_world; net := 1%nat;
      sent := [(sample_url, None)] |}).
Proof. vm_compute. reflexivity. Qed.



Example post_503_throws_and_leaves_POST :
  fst (post nat (answering 503) sample_url 1%positive sample_world) =
    Thrown (Error (js "503 could not post URL https://api.explorer.aleo.org/v1"))
  /\ (heap (snd (post nat (answering 503) sample_url 1%positive sample_world))
        !! 1%positive) ≫= (fun o => fields o !! js "method") = Some (JString (js "POST")).
Proof. split; vm_compute; reflexivity. Qed.

Example logAndThrow_sample :
  logAndThrow (js "no record found") sample_world =
  (Thrown (Error (js "no record found")),
   {| console := [js "no record found"]; heap := heap sample_world; net := O;
      sent := [] |}).
Proof. reflexivity. Qed.

(** ** Number literals under BigInt *)

Lemma digit_cases c :
  is_digit c = true ->
  c = 48 \/ c = 49 \/ c = 50 \/ c = 51 \/ c = 52 \/ c = 53 \/ c = 54 \/ c = 55
  \/ c = 56 \/ c = 57.
Proof. intros H%is_digit_range. lia. Qed.

Lemma number_char_cases c :
  number_char c = true ->
  is_digit c = true \/ c = 43 \/ c = 45 \/ c = 46 \/ c = 101 \/ c = 69.
Proof.
  unfold number_char, is_exponent_mark. rewrite !orb_true_iff, !N.eqb_eq. tauto.
Qed.

Lemma number_char_not_space c :
  number_char c = true -> is_StrWhiteSpaceChar c = false.
Proof.
  intros [Hd | [-> | [-> | [-> | [-> | ->]]]]]%number_char_cases; try reflexivity.
  apply digit_cases in Hd.
  repeat (destruct Hd as [-> | Hd]; [reflexivity |]). now subst.
Qed.

Lemma drop_while_none p s :
  forallb (fun c => negb (p c)) s = true -> drop_while p s = s.
Proof.
  destruct s as [| c s]; simpl; [reflexivity |].
  intros [Hc _]%andb_true_iff. apply negb_true_iff in Hc. now rewrite Hc.
Qed.

Lemma forallb_rev {A} (f : A -> bool) l : forallb f (rev l) = forallb f l.
Proof.
  induction l as [| a l IH]; simpl; [reflexivity |].
  rewrite forallb_app, IH. simpl. rewrite andb_true_r. apply andb_comm.
Qed.

Lemma trim_number s : forallb number_char s = true -> trim s = s.
Proof.
  intros H.
  assert (Hs : forallb (fun c => negb (is_StrWhiteSpaceChar c)) s = true).
  { rewrite forallb_forall in *. intros c Hc.
    now rewrite (number_char_not_space c (H c Hc)). }
  unfold trim. rewrite (drop_while_none _ s Hs).
  rewrite drop_while_none by now rewrite forallb_rev.
  apply rev_involutive.
Qed.

Lemma digits_in_from radix c s :
  digits_in radix (c :: s) = digits_from radix (Some 0) (c :: s).
Proof. reflexivity. Qed.

Lemma digits_from_None radix s : digits_from radix None s = None.
Proof. induction s as [| c s IH]; simpl; [reflexivity | exact IH]. Qed.

Lemma digits_from_app radix acc a b :
  digits_from radix acc (a ++ b) = digits_from radix (digits_from radix acc a) b.
Proof. unfold digits_from. apply fold_left_app. Qed.

Lemma digits_from_cons radix acc c s :
  digits_from radix acc (c :: s) =
  digits_from radix
    (match acc, hex_value c with
     | Some a, Some d => if d <? radix then Some (a * radix + d) else None
     | _, _ => None
     end) s.
Proof. reflexivity. Qed.

Lemma hex_value_digit c : is_digit c = true -> hex_value c = Some (c - 48).
Proof. unfold hex_value. now intros ->. Qed.

Lemma digits_from_digits ds : forall a,
  forallb is_digit ds = true -> is_Some (digits_from 10 (Some a) ds).
Proof.
  induction ds as [| d ds IH]; intros a; simpl forallb; [now eexists |].
  intros [Hd Hds]%andb_true_iff. rewrite digits_from_cons, (hex_value_digit _ Hd).
  apply is_digit_range in Hd.
  destruct (N.ltb_spec (d - 48) 10); [now apply IH | lia].
Qed.

Lemma digits_from_point_or_mark acc c s :
  is_point_or_mark c = true -> digits_from 10 acc (c :: s) = None.
Proof.
  intros Hc. rewrite digits_from_cons.
  replace (match acc, hex_value c with
           | Some a, Some d => if d <? 10 then Some (a * 10 + d) else None
           | _, _ => None
           end) with (@None N); [apply digits_from_None |].
  unfold is_point_or_mark, is_exponent_mark in Hc.
  rewrite !orb_true_iff, !N.eqb_eq in Hc.
  destruct acc; [| reflexivity]. now destruct Hc as [-> | [-> | ->]].
Qed.

Lemma digit_not_point_or_mark c : is_digit c = true -> is_point_or_mark c = false.
Proof.
  intros H%digit_cases.
  repeat (destruct H as [-> | H]; [reflexivity |]). now subst.
Qed.

Lemma digits_not_point_or_mark ds :
  forallb is_digit ds = true -> existsb is_point_or_mark ds = false.
Proof.
  induction ds as [| d ds IH]; simpl; [reflexivity |].
  intros [Hd Hds]%andb_true_iff. now rewrite (digit_not_point_or_mark _ Hd), IH.
Qed.

Lemma digits_number_chars ds :
  forallb is_digit ds = true -> forallb number_char ds = true.
Proof.
  rewrite !forallb_forall. intros H c Hc. unfold number_char. now rewrite (H c Hc).
Qed.

Lemma IntegerPart_digits int :
  IntegerPart int -> int <> [] /\ forallb is_digit int = true.
Proof.
  intros [| d ds Hd _ Hds]; split; try discriminate; [reflexivity |].
  simpl. now rewrite Hd, Hds.
Qed.

(** A number literal is an optional sign, an integer part, and a tail that
    is empty or begins with a point or an exponent mark. *)
Lemma NumberLiteral_split src :
  NumberLiteral src ->
  exists sg int tail,
    src = sg ++ int ++ tail /\ Optional (eq [45]) sg /\ IntegerPart int
    /\ (tail = [] \/ exists c t, tail = c :: t /\ is_point_or_mark c = true)
    /\ forallb number_char src = true.
Proof.
  intros [sg int fr ex Hsg Hint Hfr Hex].
  exists sg, int, (fr ++ ex). repeat split; auto.
  - destruct Hfr as [| ? [ds Hds]]; [| right; now exists 46, (ds ++ ex)].
    destruct Hex as [| ? [m esg ds Hm _ _]]; [now left | right].
    exists m, (esg ++ ds). split; [reflexivity |].
    unfold is_point_or_mark. now rewrite Hm, orb_true_r.
  - rewrite !forallb_app. repeat (apply andb_true_iff; split).
    + now destruct Hsg as [| ? <-].
    + apply digits_number_chars, IntegerPart_digits, Hint.
    + destruct Hfr as [| ? [ds [_ Hds]]]; [reflexivity |].
      simpl. now apply digits_number_chars.
    + destruct Hex as [| ? [m esg ds Hm Hesg [_ Hds]]]; [reflexivity |].
      simpl. rewrite forallb_app. unfold number_char at 1. rewrite Hm, !orb_true_r.
      rewrite (digits_number_chars _ Hds), andb_true_r.
      now destruct Hesg as [| ? [|]].
Qed.

(** The digits of an integer part, followed by a tail. *)
Lemma digits_in_integer_tail int tail :
  int <> [] -> forallb is_digit int = true ->
  (tail = [] \/ exists c t, tail = c :: t /\ is_point_or_mark c = true) ->
  digits_in 10 (int ++ tail) =
  if negb (existsb is_point_or_mark tail) then digits_in 10 int else None.
Proof.
  intros Hne Hds [-> | (c & t & -> & Hc)].
  - now rewrite app_nil_r.
  - simpl existsb. rewrite Hc. simpl.
    destruct int as [| d ds]; [contradiction |].
    simpl app. rewrite digits_in_from.
    change (d :: ds ++ c :: t) with ((d :: ds) ++ c :: t).
    rewrite digits_from_app. now apply digits_from_point_or_mark.
Qed.

Lemma plain_split sg int tail :
  Optional (eq [45]) sg -> forallb is_digit int = true ->
  plain (sg ++ int ++ tail) = negb (existsb is_point_or_mark tail).
Proof.
  intros Hsg Hint. unfold plain. fold is_point_or_mark.
  rewrite !existsb_app, (digits_not_point_or_mark _ Hint).
  now destruct Hsg as [| ? <-].
Qed.

Lemma StringToBigInt_number src :
  NumberLiteral src ->
  StringToBigInt src = if plain src then Some (literal_integer src) else None.
Proof.
  intros (sg & int & tail & -> & Hsg & Hint & Htail & Hchars)%NumberLiteral_split.
  destruct (IntegerPart_digits _ Hint) as [Hne Hds].
  unfold StringToBigInt. rewrite (trim_number _ Hchars).
  rewrite (plain_split _ _ _ Hsg Hds).
  pose proof (digits_in_integer_tail int tail Hne Hds Htail) as Hdig.
  destruct Hsg as [| ? <-].
  - (* no sign *)
    simpl app. unfold literal_integer.
    destruct Hint as [| d ds Hd Hz _].
    + (* 0 *)
      destruct Htail as [-> | (c & t & -> & Hc)]; [reflexivity |].
      simpl app in *.
      assert (Hcases : c = 46 \/ c = 101 \/ c = 69).
      { unfold is_point_or_mark, is_exponent_mark in Hc.
        rewrite !orb_true_iff, !N.eqb_eq in Hc. tauto. }
      destruct Hcases as [-> | [-> | ->]]; cbv iota beta; rewrite Hdig; reflexivity.
    + (* d ds *)
      assert (Hd' : d = 49 \/ d = 50 \/ d = 51 \/ d = 52 \/ d = 53 \/ d = 54 \/ d = 55
                    \/ d = 56 \/ d = 57) by (apply is_digit_range in Hd; lia).
      assert (Hsome : is_Some (digits_in 10 (d :: ds))).
      { rewrite digits_in_from. now apply digits_from_digits. }
      repeat (destruct Hd' as [-> | Hd']; [
        simpl app in *; cbv iota beta; rewrite Hdig;
        destruct (negb (existsb is_point_or_mark tail)); [| reflexivity];
        destruct Hsome as [n Hn]; now rewrite Hn |]).
      subst d. simpl app in *. cbv iota beta. rewrite Hdig.
      destruct (negb (existsb is_point_or_mark tail)); [| reflexivity].
      destruct Hsome as [n Hn]. now rewrite Hn.
  - (* a sign *)
    simpl app. cbv iota beta. unfold literal_integer. rewrite Hdig.
    destruct (negb (existsb is_point_or_mark tail)); [| reflexivity].
    assert (Hsome : is_Some (digits_in 10 int)).
    { destruct int as [| d ds]; [contradiction |].
      rewrite digits_in_from. now apply digits_from_digits. }
    destruct Hsome as [n Hn]. now rewrite Hn.
Qed.

(** ** The leaves of a JSON text *)

Lemma Spells_literal src p s : Spells (TLiteral src p) s -> s = src.
Proof.
  inversion 1 as [c t Ht | | | | |]; subst; try reflexivity.
  apply structural_cases in Ht. intuition discriminate.
Qed.

Lemma Spelled_tokens toks text : Spelled toks text -> Forall token_spelled toks.
Proof.
  induction 1 as [| w t s toks rest _ Hs _ IH]; constructor; [| exact IH].
  destruct t; simpl; trivial.
  now rewrite (Spells_literal _ _ _ Hs) in Hs.
Qed.

Lemma Forall_set_value {A} (Q : JSString * A -> Prop) k v props :
  Q (k, v) -> Forall Q props -> Forall Q (set_value k v props).
Proof.
  intros Hv. induction 1 as [| [k' v'] props Hx Hrest IH]; simpl; [constructor |].
  destruct (bool_decide (k' = k)); constructor; auto.
Qed.

Lemma Forall_add_index {A} (Q : JSString * A -> Prop) i k v props :
  Q (k, v) -> Forall Q props -> Forall Q (add_index i k v props).
Proof.
  intros Hv. induction 1 as [| [k' v'] props Hx Hrest IH]; simpl; [now repeat constructor |].
  destruct (array_index k') as [j |]; [destruct (i <? j) |]; repeat constructor; auto.
Qed.

Lemma Forall_CreateDataProperty {A} (Q : JSString * A -> Prop) k v props :
  Q (k, v) -> Forall Q props -> Forall Q (CreateDataProperty k v props).
Proof.
  intros Hv Hprops. unfold CreateDataProperty.
  destruct (has_key k props); [now apply Forall_set_value |].
  destruct (array_index k); [now apply Forall_add_index |].
  apply Forall_app. split; [assumption | now repeat constructor].
Qed.

Lemma Forall_properties {A} (Q : JSString * A -> Prop) ms : forall props,
  Forall Q ms -> Forall Q props ->
  Forall Q (fold_left (fun ps m => CreateDataProperty (fst m) (snd m) ps) ms props).
Proof.
  induction ms as [| [k v] ms IH]; intros props Hms Hprops; simpl; [assumption |].
  inversion Hms as [| ? ? Hm Hms']; subst.
  apply IH; [assumption |]. now apply Forall_CreateDataProperty.
Qed.

Lemma grammar_leaves :
  (forall toks r, ValueTokens toks r ->
     Forall token_spelled toks -> Forall leaf_spelled (leaves r))
  /\ (forall more rs, MoreElements more rs ->
        Forall token_spelled more -> Forall leaf_spelled (flat_map leaves rs))
  /\ (forall toks m, MemberTokens toks m ->
        Forall token_spelled toks -> Forall leaf_spelled (leaves (snd m)))
  /\ (forall more ms, MoreMembers more ms ->
        Forall token_spelled more ->
        Forall (fun m => Forall leaf_spelled (leaves (snd m))) ms).
Proof.
  apply grammar_mutind.
  - intros src p Htoks. inversion Htoks; subst. now repeat constructor.
  - constructor.
  - intros first r more rs _ IHfirst _ IHmore Htoks.
    inversion Htoks as [| ? ? _ Hrest]; subst.
    apply Forall_app in Hrest as [Hfirst Hrest].
    apply Forall_app in Hrest as [Hmore _].
    simpl. apply Forall_app. auto.
  - constructor.
  - intros first m more ms _ IHfirst _ IHmore Htoks.
    inversion Htoks as [| ? ? _ Hrest]; subst.
    apply Forall_app in Hrest as [Hfirst Hrest].
    apply Forall_app in Hrest as [Hmore _].
    simpl leaves. apply Forall_flat_map.
    apply (Forall_properties (fun m => Forall leaf_spelled (leaves (snd m))));
      [| constructor].
    constructor; auto.
  - constructor.
  - intros toks r more rs _ IHvalue _ IHmore Htoks.
    inversion Htoks as [| ? ? _ Hrest]; subst.
    apply Forall_app in Hrest as [Hvalue Hmore].
    simpl. apply Forall_app. auto.
  - intros src k toks r _ IHvalue Htoks.
    inversion Htoks as [| ? ? _ Hrest]; subst.
    inversion Hrest as [| ? ? _ Hvalue]; subst. simpl. auto.
  - constructor.
  - intros toks m more ms _ IHmember _ IHmore Htoks.
    inversion Htoks as [| ? ? _ Hrest]; subst.
    apply Forall_app in Hrest as [Hmember Hmore].
    constructor; auto.
Qed.

(** Every leaf of the parse record of a JSON text is a literal spelled by
    its source text. *)
Lemma JSONText_leaves json r : JSONText json r -> Forall leaf_spelled (leaves r).
Proof.
  intros (toks & Hspelled & Hvalue).
  destruct grammar_leaves as [H _]. eapply H; [eassumption |].
  eapply Spelled_tokens, Hspelled.
Qed.

(** ** parseJSON in closed form *)

Lemma Spells_number src x :
  Spells (TLiteral src (PNumber x)) src -> NumberLiteral src /\ x = JSONNumber_value src.
Proof.
  inversion 1 as [c t Ht | | | | ? Hnum | ]; subst; [| now split].
  apply structural_cases in Ht. intuition discriminate.
Qed.

(** The reviver on a leaf. *)
Lemma revive_leaf name src p :
  leaf_spelled (src, p) ->
  revive name (prim p) {| source := Some src |} =
  match p with
  | PNumber x =>
      if integral x
      then if plain src then Returned (JBigInt (literal_integer src))
           else Thrown SyntaxError
      else Returned (JNumber x)
  | _ => Returned (prim p)
  end.
Proof.
  unfold leaf_spelled. simpl fst. simpl snd. intros Hs.
  destruct p as [| b | x | s]; try reflexivity.
  apply Spells_number in Hs as [Hnum _].
  unfold revive. simpl. destruct (integral x); [| reflexivity].
  rewrite (StringToBigInt_number _ Hnum). now destruct (plain src).
Qed.

Lemma revived_value_defined r : revived_value r <> JUndefined.
Proof.
  destruct r as [src [| b | x | s] | elements | entries]; simpl; try discriminate.
  now destruct (integral x).
Qed.

Lemma integers_plain_array elements :
  integers_plain (PRArray elements) = forallb integers_plain elements.
Proof.
  unfold integers_plain. simpl.
  induction elements as [| r rest IH]; simpl; [reflexivity |].
  now rewrite forallb_app, IH.
Qed.

Lemma integers_plain_object entries :
  integers_plain (PRObject entries) = forallb (fun e => integers_plain (snd e)) entries.
Proof.
  unfold integers_plain. simpl.
  induction entries as [| e rest IH]; simpl; [reflexivity |].
  now rewrite forallb_app, IH.
Qed.

Lemma InternalizeJSONProperty_closed r :
  Forall leaf_spelled (leaves r) ->
  forall name,
    InternalizeJSONProperty revive name r =
    if integers_plain r then Returned (revived_value r) else Thrown SyntaxError.
Proof.
  induction r as [src p | elements IH | entries IH] using ParseRecord_nested_ind;
    intros Hleaves name.
  - inversion Hleaves as [| ? ? Hleaf _]; subst.
    simpl InternalizeJSONProperty. rewrite (revive_leaf _ _ _ Hleaf).
    unfold integers_plain. simpl.
    destruct p as [| b | x | s]; try reflexivity.
    destruct (integral x); [| reflexivity]. now destruct (plain src).
  - rewrite InternalizeJSONProperty_array, integers_plain_array.
    simpl in Hleaves. apply Forall_flat_map in Hleaves.
    assert (E : forall i, internalize_elements revive i elements =
              if forallb integers_plain elements
              then Returned (map revived_value elements) else Thrown SyntaxError).
    { clear name. induction elements as [| r rest IHrest]; intros i; [reflexivity |].
      inversion IH as [| ? ? Hr Hrest]; subst.
      inversion Hleaves as [| ? ? Hl Hls]; subst.
      simpl. rewrite (Hr Hl).
      destruct (integers_plain r); [| reflexivity]. simpl.
      rewrite (IHrest Hrest Hls).
      now destruct (forallb integers_plain rest). }
    rewrite E. now destruct (forallb integers_plain elements).
  - rewrite InternalizeJSONProperty_object, integers_plain_object.
    simpl in Hleaves. apply Forall_flat_map in Hleaves.
    assert (E : internalize_entries revive entries =
              if forallb (fun e => integers_plain (snd e)) entries
              then Returned (map (fun e => (fst e, revived_value (snd e))) entries)
              else Thrown SyntaxError).
    { clear name. induction entries as [| [k r] rest IHrest]; [reflexivity |].
      inversion IH as [| ? ? Hr Hrest]; subst.
      inversion Hleaves as [| ? ? Hl Hls]; subst.
      simpl in *. rewrite (Hr Hl).
      destruct (integers_plain r); [| reflexivity]. simpl.
      rewrite (IHrest Hrest Hls).
      destruct (forallb (fun e => integers_plain (snd e)) rest); [| reflexivity].
      simpl. pose proof (revived_value_defined r). now destruct (revived_value r). }
    rewrite E. now destruct (forallb (fun e => integers_plain (snd e)) entries).
Qed.

(** [parseJSON] on a text the parser accepts. *)
Lemma parseJSON_parsed (json : JSString) (r : ParseRecord) :
  ParseJSON json = Some r ->
  parseJSON json =
  if integers_plain r then Returned (revived_value r) else Thrown SyntaxError.
Proof.
  intros Hparse.
  pose proof (JSONText_leaves _ _ (proj1 (ParseJSON_correct _ _) Hparse)) as Hleaves.
  unfold parseJSON, JSON_parse. rewrite Hparse.
  now apply InternalizeJSONProperty_closed.
Qed.

(** X1. On a JSON text whose value has the parse record [r], and with
    room on the stack for the nesting of [r], [parseJSON] returns the value
    with every integer-valued number leaf replaced by the BigInt its literal
    denotes, provided each such leaf of [r] is written without fraction and
    exponent; otherwise it throws a SyntaxError. The leaves of [r] are
    those of the value: a member that a later member with the same key
    replaces is not among them. *)
Theorem parseJSON_closed_form (stack : nat) (json : JSString) (r : ParseRecord) :
  JSONText json r ->
  (depth r <= stack)%nat ->
  parseJSON_within stack json =
  if integers_plain r then Returned (revived_value r) else Thrown SyntaxError.
Proof.
  intros Htext%ParseJSON_correct Hdepth.
  rewrite (parseJSON_within_enough _ _ _ Htext Hdepth).
  now apply parseJSON_parsed.
Qed.

(** X2. Whatever the input and the room on the stack, [parseJSON] returns a
    value or throws a SyntaxError or a RangeError, and no other exception;
    it throws the RangeError only on a JSON text that is nested deeper than
    the stack has room for. *)
Theorem parseJSON_exceptions (stack : nat) (json : JSString) :
  (parseJSON_within stack json = Thrown SyntaxError
   \/ parseJSON_within stack json = Thrown RangeError
   \/ exists v, parseJSON_within stack json = Returned v)
  /\ (parseJSON_within stack json = Thrown RangeError ->
      exists r, JSONText json r /\ (stack < depth r)%nat).
Proof.
  assert (Hideal : parseJSON json = Thrown SyntaxError
                   \/ exists v, parseJSON json = Returned v).
  { destruct (ParseJSON json) as [r |] eqn:Hparse.
    - rewrite (parseJSON_parsed _ _ Hparse).
      destruct (integers_plain r); [right; eauto | now left].
    - left. unfold parseJSON, JSON_parse. now rewrite Hparse. }
  destruct (parseJSON_within_cases stack json) as [Heq | [Hrange (r & Hparse & Hdeep)]].
  - rewrite Heq. split; [tauto |].
    destruct Hideal as [-> | [v ->]]; discriminate.
  - split; [tauto |]. intros _. exists r. split; [now apply ParseJSON_correct | exact Hdeep].
Qed.

Lemma revived_no_integral_Number r : no_integral_Number (revived_value r) = true.
Proof.
  induction r as [src p | elements IH | entries IH] using ParseRecord_nested_ind.
  - destruct p as [| b | x | s]; simpl; try reflexivity.
    destruct (integral x) eqn:E; simpl; [reflexivity | now rewrite E].
  - simpl. induction IH as [| r rest Hr _ IHrest]; simpl; [reflexivity |].
    now rewrite Hr, IHrest.
  - simpl. induction IH as [| [k r] rest Hr _ IHrest]; simpl in *; [reflexivity |].
    now rewrite Hr, IHrest.
Qed.

Lemma parseJSON_returns json v :
  parseJSON json = Returned v ->
  exists r, JSONText json r /\ integers_plain r = true /\ v = revived_value r.
Proof.
  destruct (ParseJSON json) as [r |] eqn:Hparse.
  - rewrite (parseJSON_parsed _ _ Hparse).
    destruct (integers_plain r) eqn:E; [| discriminate].
    intros [= <-]. exists r. split; [now apply ParseJSON_correct | now split].
  - unfold parseJSON, JSON_parse. rewrite Hparse. discriminate.
Qed.

(** X3. A value [parseJSON] returns holds no integer-valued Number: every
    integer in it is a BigInt. *)
Theorem parseJSON_no_integral_Number (json : JSString) (v : JSValue) :
  parseJSON json = Returned v -> no_integral_Number v = true.
Proof.
  intros (r & _ & _ & ->)%parseJSON_returns. apply revived_no_integral_Number.
Qed.

(** ** parseJSON against the standard parse *)

Lemma cut_at_none p s : existsb p s = false -> cut_at p s = (s, None).
Proof.
  induction s as [| c s IH]; simpl; [reflexivity |].
  intros [Hc Hs]%orb_false_iff. now rewrite Hc, (IH Hs).
Qed.

Lemma no_point_or_mark s :
  existsb is_point_or_mark s = false ->
  existsb is_exponent_mark s = false /\ existsb (N.eqb 46) s = false.
Proof.
  induction s as [| c s IH]; cbn [existsb]; [now split |].
  intros [Hc Hs]%orb_false_iff. destruct (IH Hs) as [-> ->].
  unfold is_point_or_mark in Hc. apply orb_false_iff in Hc as [Hp ->].
  rewrite (N.eqb_sym 46 c), Hp. now split.
Qed.

(** The Number of a literal's body that has neither fraction nor exponent. *)
Lemma number_body_value neg body :
  existsb is_point_or_mark body = false ->
  (let '(mantissa, exp) := cut_at is_exponent_mark body in
   let '(int, frac) := cut_at (N.eqb 46) mantissa in
   let frac := default [] frac in
   let e10 := (from_option exponent_value 0 exp - Z.of_nat (length frac))%Z in
   decimal_to_Number neg (default 0 (digits_in 10 (int ++ frac))) e10)
  = decimal_to_Number neg (default 0 (digits_in 10 body)) 0.
Proof.
  intros [Hm Hp]%no_point_or_mark.
  rewrite (cut_at_none _ _ Hm), (cut_at_none _ _ Hp). simpl.
  now rewrite app_nil_r.
Qed.

Lemma JSONNumber_value_signed body :
  existsb is_point_or_mark body = false ->
  JSONNumber_value (45 :: body) = decimal_to_Number true (default 0 (digits_in 10 body)) 0.
Proof. exact (number_body_value true body). Qed.

Lemma JSONNumber_value_unsigned d ds :
  is_digit d = true -> existsb is_point_or_mark (d :: ds) = false ->
  JSONNumber_value (d :: ds) =
  decimal_to_Number false (default 0 (digits_in 10 (d :: ds))) 0.
Proof.
  intros Hd%digit_cases H.
  repeat (destruct Hd as [-> | Hd]; [exact (number_body_value false _ H) |]).
  subst d. exact (number_body_value false _ H).
Qed.

Lemma literal_integer_unsigned d ds :
  is_digit d = true ->
  literal_integer (d :: ds) = Z.of_N (default 0 (digits_in 10 (d :: ds))).
Proof.
  intros Hd%digit_cases.
  repeat (destruct Hd as [-> | Hd]; [reflexivity |]). now subst d.
Qed.

(** A literal without fraction and exponent: an optional sign and digits. *)
Lemma plain_literal src :
  NumberLiteral src -> plain src = true ->
  exists sg int, src = sg ++ int /\ Optional (eq [45]) sg /\ IntegerPart int.
Proof.
  intros (sg & int & tail & -> & Hsg & Hint & Htail & _)%NumberLiteral_split Hplain.
  destruct (IntegerPart_digits _ Hint) as [_ Hds].
  rewrite (plain_split _ _ _ Hsg Hds) in Hplain.
  destruct Htail as [-> | (c & t & -> & Hc)].
  - exists sg, int. now rewrite app_nil_r.
  - simpl in Hplain. now rewrite Hc in Hplain.
Qed.

Lemma plain_literal_nearest src :
  NumberLiteral src -> plain src = true ->
  nearest_Number (literal_integer src) (JSONNumber_value src).
Proof.
  intros Hnum Hplain.
  destruct (plain_literal _ Hnum Hplain) as (sg & int & -> & Hsg & Hint).
  destruct (IntegerPart_digits _ Hint) as [Hne Hds].
  pose proof (digits_not_point_or_mark _ Hds) as Hnp.
  destruct int as [| d ds]; [contradiction |].
  assert (Hd : is_digit d = true) by (simpl in Hds; now apply andb_true_iff in Hds).
  destruct Hsg as [| ? <-]; simpl app.
  - rewrite (JSONNumber_value_unsigned _ _ Hd Hnp), (literal_integer_unsigned _ _ Hd).
    left. destruct (default 0 (digits_in 10 (d :: ds))); reflexivity.
  - rewrite (JSONNumber_value_signed _ Hnp).
    change (literal_integer (45 :: d :: ds))
      with (- Z.of_N (default 0%N (digits_in 10 (d :: ds))))%Z.
    destruct (default 0 (digits_in 10 (d :: ds))); [right; now split | left; reflexivity].
Qed.

Lemma record_mirrors r :
  Forall leaf_spelled (leaves r) -> integers_plain r = true ->
  Mirrors (record_value r) (revived_value r).
Proof.
  induction r as [src p | elements IH | entries IH] using ParseRecord_nested_ind.
  - intros Hleaves Hplain. inversion Hleaves as [| ? ? Hleaf _]; subst.
    destruct p as [| b | x | s]; simpl; [constructor | constructor | | constructor].
    unfold integers_plain in Hplain. simpl in Hplain. rewrite andb_true_r in Hplain.
    destruct (integral x) eqn:Hx; [| now apply mirrors_number].
    unfold leaf_spelled in Hleaf. simpl in Hleaf.
    apply Spells_number in Hleaf as [Hnum ->].
    apply mirrors_integer; [exact Hx |]. now apply plain_literal_nearest.
  - rewrite integers_plain_array. simpl. intros Hleaves%Forall_flat_map Hplain.
    constructor.
    induction elements as [| r rest IHrest]; simpl; [constructor |].
    inversion IH as [| ? ? Hr Hrest]; subst.
    inversion Hleaves as [| ? ? Hl Hls]; subst.
    simpl in Hplain. apply andb_true_iff in Hplain as [Hp Hps].
    constructor; [now apply Hr | now apply IHrest].
  - rewrite integers_plain_object. simpl. intros Hleaves%Forall_flat_map Hplain.
    constructor.
    induction entries as [| [k r] rest IHrest]; simpl; [constructor |].
    inversion IH as [| ? ? Hr Hrest]; subst.
    inversion Hleaves as [| ? ? Hl Hls]; subst.
    simpl in Hplain. apply andb_true_iff in Hplain as [Hp Hps].
    constructor; [split; [reflexivity | now apply Hr] | now apply IHrest].
Qed.

(** X4. When [parseJSON] returns, its value mirrors the one [JSON.parse]
    returns on the same text: the same arrays and objects with the same
    keys in the same order, the same strings, booleans, [null]s and
    non-integer Numbers, and in place of each integer-valued Number a
    BigInt whose nearest Number is that Number. *)
Theorem parseJSON_mirrors_JSON_parse (json : JSString) (std out : JSValue) :
  JSON_parse json None = Returned std ->
  parseJSON json = Returned out ->
  Mirrors std out.
Proof.
  intros Hstd (r & Htext & Hplain & ->)%parseJSON_returns.
  pose proof (JSONText_leaves _ _ Htext) as Hleaves.
  apply ParseJSON_correct in Htext.
  unfold JSON_parse in Hstd. rewrite Htext in Hstd. injection Hstd as <-.
  now apply record_mirrors.
Qed.

(** ** Integer numerals *)

Lemma uint_digits_digits d : forallb is_digit (uint_digits d) = true.
Proof. induction d; simpl; auto. Qed.

Lemma digits_from_digit a k rest :
  k < 10 ->
  digits_from 10 (Some a) (48 + k :: rest) = digits_from 10 (Some (a * 10 + k)) rest.
Proof.
  intros Hk. rewrite digits_from_cons.
  assert (Hd : is_digit (48 + k) = true).
  { unfold is_digit. apply andb_true_iff. split; apply N.leb_le; lia. }
  rewrite (hex_value_digit _ Hd).
  replace (48 + k - 48) with k by lia.
  now destruct (N.ltb_spec k 10); [| lia].
Qed.

Lemma of_uint_acc_digits d : forall acc,
  digits_from 10 (Some (Npos acc)) (uint_digits d) = Some (Npos (Pos.of_uint_acc d acc)).
Proof.
  induction d; intros acc; cbn [uint_digits Pos.of_uint_acc]; [reflexivity | ..].
  - rewrite (digits_from_digit _ 0) by lia. rewrite <- IHd. f_equal. f_equal. lia.
  - rewrite (digits_from_digit _ 1) by lia. rewrite <- IHd. f_equal. f_equal. lia.
  - rewrite (digits_from_digit _ 2) by lia. rewrite <- IHd. f_equal. f_equal. lia.
  - rewrite (digits_from_digit _ 3) by lia. rewrite <- IHd. f_equal. f_equal. lia.
  - rewrite (digits_from_digit _ 4) by lia. rewrite <- IHd. f_equal. f_equal. lia.
  - rewrite (digits_from_digit _ 5) by lia. rewrite <- IHd. f_equal. f_equal. lia.
  - rewrite (digits_from_digit _ 6) by lia. rewrite <- IHd. f_equal. f_equal. lia.
  - rewrite (digits_from_digit _ 7) by lia. rewrite <- IHd. f_equal. f_equal. lia.
  - rewrite (digits_from_digit _ 8) by lia. rewrite <- IHd. f_equal. f_equal. lia.
  - rewrite (digits_from_digit _ 9) by lia. rewrite <- IHd. f_equal. f_equal. lia.
Qed.

Lemma of_uint_digits d :
  digits_from 10 (Some 0) (uint_digits d) = Some (N.of_uint d).
Proof.
  induction d; cbn [uint_digits]; [reflexivity | ..].
  - rewrite (digits_from_digit _ 0) by lia. exact IHd.
  - rewrite (digits_from_digit _ 1) by lia. apply of_uint_acc_digits.
  - rewrite (digits_from_digit _ 2) by lia. apply of_uint_acc_digits.
  - rewrite (digits_from_digit _ 3) by lia. apply of_uint_acc_digits.
  - rewrite (digits_from_digit _ 4) by lia. apply of_uint_acc_digits.
  - rewrite (digits_from_digit _ 5) by lia. apply of_uint_acc_digits.
  - rewrite (digits_from_digit _ 6) by lia. apply of_uint_acc_digits.
  - rewrite (digits_from_digit _ 7) by lia. apply of_uint_acc_digits.
  - rewrite (digits_from_digit _ 8) by lia. apply of_uint_acc_digits.
  - rewrite (digits_from_digit _ 9) by lia. apply of_uint_acc_digits.
Qed.

(** The digits [ToString] prints have no leading zero. *)
Lemma ToString_N_integer n : IntegerPart (ToString_N n).
Proof.
  unfold ToString_N.
  assert (Hnorm : N.to_uint n = Decimal.unorm (N.to_uint n)).
  { rewrite <- (DecimalN.Unsigned.of_to n) at 1. apply DecimalN.Unsigned.to_of. }
  rewrite Hnorm. unfold Decimal.unorm.
  pose proof (DecimalFacts.nzhead_nonzero (N.to_uint n)) as Hnz.
  destruct (Decimal.nzhead (N.to_uint n)) as [| u | u | u | u | u | u | u | u | u | u];
    cbn [uint_digits];
    try (apply int_digits; [reflexivity | discriminate | apply uint_digits_digits]).
  - apply int_zero.
  - now destruct (Hnz u).
Qed.

(** Printing a non-negative integer and reading the digits gives it back. *)
Lemma digits_in_ToString_N n : digits_in 10 (ToString_N n) = Some n.
Proof.
  destruct (IntegerPart_digits _ (ToString_N_integer n)) as [Hne _].
  destruct (ToString_N n) as [| c s] eqn:E; [contradiction |].
  rewrite digits_in_from, <- E. unfold ToString_N.
  rewrite of_uint_digits. f_equal. apply DecimalN.Unsigned.of_to.
Qed.

Lemma ToString_Z_number z : NumberLiteral (ToString_Z z) /\ plain (ToString_Z z) = true.
Proof.
  pose proof (ToString_N_integer (Z.abs_N z)) as Hint.
  destruct (IntegerPart_digits _ Hint) as [_ Hds].
  unfold ToString_Z. destruct (z <? 0)%Z.
  - split.
    + replace (45 :: ToString_N (Z.abs_N z))
        with ([45] ++ ToString_N (Z.abs_N z) ++ [] ++ []) by now rewrite !app_nil_r.
      constructor; [now constructor | exact Hint | constructor | constructor].
    + pose proof (plain_split [45] (ToString_N (Z.abs_N z)) []
                    (present _ _ eq_refl) Hds) as H.
      now rewrite app_nil_r in H.
  - split.
    + replace (ToString_N (Z.abs_N z))
        with ([] ++ ToString_N (Z.abs_N z) ++ [] ++ []) by now rewrite !app_nil_r.
      constructor; [constructor | exact Hint | constructor | constructor].
    + pose proof (plain_split [] (ToString_N (Z.abs_N z)) [] (absent _) Hds) as H.
      now rewrite app_nil_r in H.
Qed.

Lemma literal_integer_ToString_Z z : literal_integer (ToString_Z z) = z.
Proof.
  pose proof (ToString_N_integer (Z.abs_N z)) as Hint.
  pose proof (digits_in_ToString_N (Z.abs_N z)) as Hval.
  unfold ToString_Z. destruct (Z.ltb_spec z 0).
  - change (literal_integer (45 :: ToString_N (Z.abs_N z)))
      with (- Z.of_N (default 0%N (digits_in 10 (ToString_N (Z.abs_N z)))))%Z.
    rewrite Hval. simpl. lia.
  - destruct (ToString_N (Z.abs_N z)) as [| d ds] eqn:E; [inversion Hint |].
    assert (Hd : is_digit d = true).
    { apply IntegerPart_digits in Hint as [_ Hds]. simpl in Hds.
      now apply andb_true_iff in Hds. }
    rewrite (literal_integer_unsigned _ _ Hd), Hval. simpl. lia.
Qed.

Lemma JSONNumber_value_ToString_Z z :
  JSONNumber_value (ToString_Z z) = decimal_to_Number (z <? 0)%Z (Z.abs_N z) 0.
Proof.
  pose proof (ToString_N_integer (Z.abs_N z)) as Hint.
  pose proof (digits_in_ToString_N (Z.abs_N z)) as Hval.
  destruct (IntegerPart_digits _ Hint) as [_ Hds].
  pose proof (digits_not_point_or_mark _ Hds) as Hnp.
  unfold ToString_Z. destruct (z <? 0)%Z.
  - now rewrite (JSONNumber_value_signed _ Hnp), Hval.
  - destruct (ToString_N (Z.abs_N z)) as [| d ds] eqn:E; [inversion Hint |].
    assert (Hd : is_digit d = true).
    { simpl in Hds. now apply andb_true_iff in Hds. }
    now rewrite (JSONNumber_value_unsigned _ _ Hd Hnp), Hval.
Qed.

(** The text of an integer numeral is a JSON text. *)
Lemma ToString_Z_text z :
  JSONText (ToString_Z z)
    (PRPrimitive (ToString_Z z) (PNumber (JSONNumber_value (ToString_Z z)))).
Proof.
  exists [TLiteral (ToString_Z z) (PNumber (JSONNumber_value (ToString_Z z)))].
  split; [| constructor].
  replace (ToString_Z z) with ([] ++ ToString_Z z ++ []) at 3 by now rewrite app_nil_r.
  constructor; [reflexivity | | now constructor].
  constructor. apply ToString_Z_number.
Qed.

(** [parseJSON] on an integer numeral: the BigInt, as long as the nearest
    Number is finite. *)
Lemma parseJSON_numeral z :
  parseJSON (ToString_Z z) =
  Returned (let x := decimal_to_Number (z <? 0)%Z (Z.abs_N z) 0 in
            if integral x then JBigInt z else JNumber x).
Proof.
  rewrite (parseJSON_parsed _ _ (proj2 (ParseJSON_correct _ _) (ToString_Z_text z))).
  unfold integers_plain. cbn [leaves forallb fst snd].
  rewrite (proj2 (ToString_Z_number z)), andb_true_r.
  cbn [revived_value]. rewrite JSONNumber_value_ToString_Z, literal_integer_ToString_Z.
  cbv zeta. now destruct (integral _).
Qed.

(** ** Rounding an integer to a Number *)

Section Rounding.

Local Open Scope Z_scope.

Lemma digits2_bounds p :
  2 ^ (Zpos (digits2_pos p) - 1) <= Zpos p < 2 ^ Zpos (digits2_pos p).
Proof.
  induction p as [p IH | p IH |]; cbn [digits2_pos]; [| | simpl; lia];
    rewrite Pos2Z.inj_succ;
    replace (Z.succ (Zpos (digits2_pos p)) - 1) with (Zpos (digits2_pos p)) by lia;
    rewrite Z.pow_succ_r by lia;
    replace (2 ^ Zpos (digits2_pos p)) with (2 * 2 ^ (Zpos (digits2_pos p) - 1)) in *
      by (rewrite <- Z.pow_succ_r by lia; f_equal; lia);
    lia.
Qed.

Lemma digits2_unique p k :
  2 ^ (k - 1) <= Zpos p < 2 ^ k -> Zpos (digits2_pos p) = k.
Proof.
  intros [Hlo Hhi]. destruct (digits2_bounds p) as [Hlo' Hhi'].
  set (d := Zpos (digits2_pos p)) in *.
  destruct (Z.lt_trichotomy d k) as [Hlt | [Heq | Hgt]]; [| exact Heq |].
  - assert (2 ^ d <= 2 ^ (k - 1)) by (apply Z.pow_le_mono_r; lia). lia.
  - assert (0 <= k).
    { destruct (Z.le_gt_cases 0 k); [assumption |].
      rewrite Z.pow_neg_r in Hhi by assumption. lia. }
    assert (2 ^ k <= 2 ^ (d - 1)) by (apply Z.pow_le_mono_r; lia). lia.
Qed.

Lemma shr_1_m mrs : 0 <= shr_m mrs -> shr_m (shr_1 mrs) = shr_m mrs / 2.
Proof.
  destruct mrs as [m r s]. cbn [shr_m]. intros Hm.
  destruct m as [| [p | p |] |]; cbn [shr_1 shr_m]; [reflexivity | | | reflexivity | lia].
  - apply (Z.div_unique_pos _ _ _ 1); lia.
  - apply (Z.div_unique_pos _ _ _ 0); lia.
Qed.

Lemma iter_shr_m p : forall mrs,
  0 <= shr_m mrs -> shr_m (SpecFloat.iter_pos shr_1 p mrs) = shr_m mrs / 2 ^ Zpos p.
Proof.
  assert (Hpow : forall q, 0 < 2 ^ Zpos q) by (intros q; apply Z.pow_pos_nonneg; lia).
  induction p as [p IH | p IH |]; intros mrs Hm; cbn [SpecFloat.iter_pos].
  - assert (H1 : 0 <= shr_m (shr_1 mrs)) by (rewrite shr_1_m by assumption; apply Z.div_pos; lia).
    assert (H2 : 0 <= shr_m (SpecFloat.iter_pos shr_1 p (shr_1 mrs))).
    { rewrite IH by assumption. apply Z.div_pos; [assumption | apply Hpow]. }
    rewrite IH, IH, shr_1_m by assumption.
    rewrite !Z.div_div by (try apply Hpow; lia).
    f_equal. rewrite Pos2Z.inj_xI.
    replace (2 * Zpos p + 1) with (1 + Zpos p + Zpos p) by lia.
    rewrite !Z.pow_add_r by lia. change (2 ^ 1) with 2. lia.
  - assert (H2 : 0 <= shr_m (SpecFloat.iter_pos shr_1 p mrs)).
    { rewrite IH by assumption. apply Z.div_pos; [assumption | apply Hpow]. }
    rewrite IH, IH by assumption.
    rewrite !Z.div_div by (try apply Hpow; pose proof (Hpow p); lia).
    f_equal. replace (Zpos p~0) with (Zpos p + Zpos p) by lia.
    rewrite Z.pow_add_r by lia. lia.
  - rewrite shr_1_m by assumption. reflexivity.
Qed.

Lemma round_nearest_even_cases m l :
  round_nearest_even m l = m \/ round_nearest_even m l = m + 1.
Proof.
  unfold round_nearest_even.
  destruct l as [| []]; auto. destruct (IntDef.Z.even m); auto.
Qed.

Lemma iter_xO m q : Zpos (PosDef.Pos.iter xO m q) = Zpos m * 2 ^ Zpos q.
Proof.
  change (PosDef.Pos.iter xO m q) with (Pos.iter xO m q).
  induction q as [| q IH] using Pos.peano_ind.
  - simpl. lia.
  - rewrite Pos.iter_succ, Pos2Z.inj_succ, Z.pow_succ_r by lia.
    replace (Zpos (Pos.iter xO m q)~0) with (2 * Zpos (Pos.iter xO m q)) by lia.
    rewrite IH. lia.
Qed.

Lemma shr_1_r mrs : 0 <= shr_m mrs -> shr_r (shr_1 mrs) = Z.odd (shr_m mrs).
Proof.
  destruct mrs as [m r s]. cbn [shr_m]. intros Hm.
  destruct m as [| [p | p |] |]; cbn [shr_1 shr_r]; try reflexivity. lia.
Qed.

Lemma iter_shr_nonneg p : forall mrs,
  0 <= shr_m mrs -> 0 <= shr_m (SpecFloat.iter_pos shr_1 p mrs).
Proof.
  intros mrs Hm. rewrite iter_shr_m by assumption.
  apply Z.div_pos; [assumption | apply Z.pow_pos_nonneg; lia].
Qed.

Lemma iter_shr_r p : forall mrs,
  0 <= shr_m mrs ->
  shr_r (SpecFloat.iter_pos shr_1 p mrs) = Z.odd (shr_m mrs / 2 ^ (Zpos p - 1)).
Proof.
  assert (Hpow : forall q, 0 < 2 ^ Zpos q) by (intros q; apply Z.pow_pos_nonneg; lia).
  induction p as [p IH | p IH |]; intros mrs Hm; cbn [SpecFloat.iter_pos].
  - assert (H1 : 0 <= shr_m (shr_1 mrs)) by (rewrite shr_1_m by assumption; apply Z.div_pos; lia).
    rewrite IH by now apply iter_shr_nonneg.
    rewrite iter_shr_m, shr_1_m by assumption.
    rewrite !Z.div_div by (try apply Z.pow_pos_nonneg; pose proof (Hpow p); lia).
    do 2 f_equal.
    replace (Zpos p~1 - 1) with (1 + Zpos p + (Zpos p - 1)) by lia.
    rewrite !Z.pow_add_r by lia. change (2 ^ 1) with 2. lia.
  - rewrite IH by now apply iter_shr_nonneg.
    rewrite iter_shr_m by assumption.
    rewrite !Z.div_div by (try apply Z.pow_pos_nonneg; pose proof (Hpow p); lia).
    do 2 f_equal.
    replace (Zpos p~0 - 1) with (Zpos p + (Zpos p - 1)) by lia.
    rewrite !Z.pow_add_r by lia. lia.
  - rewrite shr_1_r by assumption. simpl. now rewrite Z.div_1_r.
Qed.

Lemma odd_double q : q = 2 * (q / 2) + Z.b2z (Z.odd q).
Proof. rewrite <- Z.div2_div. apply Z.div2_odd. Qed.

(** Rounding to the nearest, ties to even, after a shift: the mantissa
    [q / 2] with round bit the last bit of [q]. *)
Lemma round_shifted q mrs :
  2 ^ 53 <= q < 2 ^ 54 ->
  shr_m mrs = q / 2 -> shr_r mrs = Z.odd q ->
  let m2 := round_nearest_even (shr_m mrs) (loc_of_shr_record mrs) in
  2 ^ 52 <= m2 <= 2 ^ 53 /\ (m2 = 2 ^ 53 <-> q = 2 ^ 54 - 1).
Proof.
  change (2 ^ 52) with 4503599627370496.
  change (2 ^ 53) with 9007199254740992.
  change (2 ^ 54) with 18014398509481984.
  intros Hq. destruct mrs as [m r s]. cbn [shr_m shr_r]. intros -> ->.
  pose proof (odd_double q) as Hdouble.
  unfold round_nearest_even, loc_of_shr_record.
  destruct (Z.odd q), s; cbn [Z.b2z] in Hdouble; cbv zeta; try lia.
  destruct (IntDef.Z.even (q / 2)) eqn:Heven; [| lia].
  apply Z.even_spec in Heven as [h Hh]. lia.
Qed.

Lemma round_big sx mx :
  53 < Zpos (digits2_pos mx) ->
  exists m'' e'',
    binary_round 53 1024 sx mx 0 =
      (if e'' <=? 971 then S754_finite sx m'' e'' else S754_infinity sx)
    /\ (e'' = Zpos (digits2_pos mx) - 53 \/ e'' = Zpos (digits2_pos mx) - 52)
    /\ (e'' = Zpos (digits2_pos mx) - 52 <->
        2 ^ 54 - 1 <= Zpos mx / 2 ^ (Zpos (digits2_pos mx) - 54)).
Proof.
  intros Hd.
  destruct (digits2_bounds mx) as [Hlo Hhi].
  set (d := Zpos (digits2_pos mx)) in *.
  unfold binary_round. fold d.
  replace (fexp 53 1024 (d + 0)) with (d - 53) by (unfold fexp, emin; lia).
  unfold shl_align.
  destruct (d - 53 - 0) as [| k | k] eqn:Hk; try lia.
  unfold binary_round_aux, shr_fexp.
  change (Zdigits2 (Zpos mx)) with d.
  replace (fexp 53 1024 (d + 0) - 0) with (Zpos k) by (unfold fexp, emin; lia).
  cbn [shr shr_record_of_loc].
  replace (d - 54) with (Zpos k - 1) by lia.
  set (rec0 := {| shr_m := Zpos mx; shr_r := false; shr_s := false |}).
  assert (Hrec0 : 0 <= shr_m rec0) by (simpl; lia).
  set (mrs1 := SpecFloat.iter_pos shr_1 k rec0).
  set (q := Zpos mx / 2 ^ (Zpos k - 1)).
  assert (Hpow : 0 < 2 ^ (Zpos k - 1)) by (apply Z.pow_pos_nonneg; lia).
  assert (Hq : 2 ^ 53 <= q < 2 ^ 54).
  { replace (d - 1) with (Zpos k - 1 + 53) in Hlo by lia.
    replace d with (Zpos k - 1 + 54) in Hhi by lia.
    rewrite Z.pow_add_r in Hlo, Hhi by lia.
    split; [apply Z.div_le_lower_bound | apply Z.div_lt_upper_bound]; assumption. }
  assert (Hm1 : shr_m mrs1 = q / 2).
  { unfold mrs1, q. rewrite iter_shr_m by assumption.
    rewrite Z.div_div by lia. f_equal.
    replace (Zpos k) with (Zpos k - 1 + 1) at 1 by lia.
    now rewrite Z.pow_add_r by lia. }
  assert (Hr1 : shr_r mrs1 = Z.odd q) by now apply iter_shr_r.
  destruct (round_shifted q mrs1 Hq Hm1 Hr1) as [Hm2 Hiff].
  remember (round_nearest_even (shr_m mrs1) (loc_of_shr_record mrs1)) as m2 eqn:Em2.
  clear Em2.
  change (2 ^ 52) with 4503599627370496 in *.
  change (2 ^ 53) with 9007199254740992 in *.
  change (2 ^ 54) with 18014398509481984 in *.
  destruct m2 as [| p2 | p2]; try lia.
  destruct (Z.eq_dec (Zpos p2) 9007199254740992) as [Heq | Hne].
  - injection Heq as ->.
    change (Zdigits2 9007199254740992) with 54.
    replace (fexp 53 1024 (54 + (0 + Zpos k)) - (0 + Zpos k)) with 1
      by (unfold fexp, emin; lia).
    cbn [shr SpecFloat.iter_pos shr_1 shr_m].
    eexists _, (0 + Zpos k + 1). split; [reflexivity |].
    split; [right; lia |]. split; [lia | intros _; lia].
  - assert (Hdig : Zdigits2 (Zpos p2) = 53) by (apply digits2_unique; simpl; lia).
    rewrite Hdig.
    replace (fexp 53 1024 (53 + (0 + Zpos k)) - (0 + Zpos k)) with 0
      by (unfold fexp, emin; lia).
    cbn [shr shr_m].
    exists p2, (0 + Zpos k). split; [reflexivity |].
    split; [left; lia |]. split; [lia | intros Hge; exfalso; apply Hne, Hiff; lia].
Qed.

(** An integer of at most 53 bits is a Number exactly. *)
Lemma round_small sx mx :
  Zpos (digits2_pos mx) <= 53 ->
  integral (binary_round 53 1024 sx mx 0) = true.
Proof.
  intros Hd.
  destruct (digits2_bounds mx) as [Hlo Hhi].
  set (d := Zpos (digits2_pos mx)) in *.
  assert (Hd0 : 0 < d) by (unfold d; lia).
  unfold binary_round. fold d.
  replace (fexp 53 1024 (d + 0)) with (d - 53) by (unfold fexp, emin; lia).
  assert (Hexact : forall mz ez,
    - 52 <= ez <= 0 -> Zdigits2 (Zpos mz) = 53 ->
    binary_round_aux 53 1024 sx (Zpos mz) ez loc_Exact = S754_finite sx mz ez).
  { intros mz ez Hez Hdig. unfold binary_round_aux, shr_fexp. rewrite Hdig.
    replace (fexp 53 1024 (53 + ez) - ez) with 0 by (unfold fexp, emin; lia).
    cbn [shr shr_record_of_loc shr_m loc_of_shr_record round_nearest_even].
    rewrite Hdig.
    replace (fexp 53 1024 (53 + ez) - ez) with 0 by (unfold fexp, emin; lia).
    cbn [shr shr_m].
    destruct (Z.leb_spec ez (1024 - 53)); [reflexivity | lia]. }
  unfold shl_align.
  destruct (d - 53 - 0) as [| k | k] eqn:Hk; try lia.
  - rewrite Hexact; [reflexivity | lia |].
    apply digits2_unique. fold d. replace 53 with d by lia. split; assumption.
  - rewrite Hexact; [| lia |].
    + cbn [integral]. destruct (Z.leb_spec 0 (d - 53)); [reflexivity |].
      apply Z.eqb_eq. rewrite iter_xO.
      replace (- (d - 53)) with (Zpos k) by lia.
      apply Z.mod_mul. apply Z.pow_nonzero; lia.
    + apply digits2_unique. rewrite iter_xO.
      assert (Hpow : 0 < 2 ^ Zpos k) by (apply Z.pow_pos_nonneg; lia).
      assert (E1 : 53 - 1 = d - 1 + Zpos k) by lia.
      assert (E2 : 53 = d + Zpos k) by lia.
      rewrite E1, E2 at 1.
      rewrite !Z.pow_add_r by lia. split; nia.
Qed.

(** Number.MAX_VALUE plus half a unit in its last place: the least
    magnitude that rounds to Infinity. *)
Lemma overflow_threshold : 2 ^ 1024 - 2 ^ 970 = 2 ^ 970 * (2 ^ 54 - 1).
Proof. reflexivity. Qed.

Lemma bits_le p k : Zpos p < 2 ^ k -> Zpos (digits2_pos p) <= k.
Proof.
  intros H. destruct (digits2_bounds p) as [Hlo _].
  destruct (Z.le_gt_cases (Zpos (digits2_pos p)) k) as [| Hgt]; [assumption |].
  assert (2 ^ k <= 2 ^ (Zpos (digits2_pos p) - 1)); [| lia].
  apply Z.pow_le_mono_r; lia.
Qed.

Lemma bits_gt p k : 0 <= k -> 2 ^ k <= Zpos p -> k < Zpos (digits2_pos p).
Proof.
  intros Hk H. destruct (digits2_bounds p) as [_ Hhi].
  destruct (Z.lt_ge_cases k (Zpos (digits2_pos p))) as [| Hge]; [assumption |].
  assert (2 ^ Zpos (digits2_pos p) <= 2 ^ k); [| lia].
  apply Z.pow_le_mono_r; lia.
Qed.

Lemma round_finite sx mx :
  Zpos mx < 2 ^ 1024 - 2 ^ 970 ->
  integral (binary_round 53 1024 sx mx 0) = true.
Proof.
  intros Hlt.
  destruct (Z.le_gt_cases (Zpos (digits2_pos mx)) 53) as [Hs | Hb];
    [now apply round_small |].
  destruct (round_big sx mx Hb) as (m'' & e'' & -> & He & Hiff).
  assert (Hd : Zpos (digits2_pos mx) <= 1024).
  { apply bits_le. eapply Z.lt_trans; [exact Hlt | reflexivity]. }
  assert (He'' : e'' <= 971).
  { destruct (Z.le_gt_cases e'' 971) as [| Hgt]; [assumption | exfalso].
    assert (Hd' : Zpos (digits2_pos mx) = 1024) by lia.
    assert (Hup : e'' = Zpos (digits2_pos mx) - 52) by lia.
    apply Hiff in Hup. rewrite Hd' in Hup. change (1024 - 54) with 970 in Hup.
    rewrite overflow_threshold in Hlt.
    apply Z.div_lt_upper_bound in Hlt; [| reflexivity].
    exact (Z.lt_irrefl _ (Z.le_lt_trans _ _ _ Hup Hlt)). }
  destruct (Z.leb_spec e'' 971); [| lia].
  cbn [integral]. destruct (Z.leb_spec 0 e''); [reflexivity | lia].
Qed.

Lemma round_overflow sx mx :
  2 ^ 1024 - 2 ^ 970 <= Zpos mx ->
  binary_round 53 1024 sx mx 0 = S754_infinity sx.
Proof.
  intros Hge.
  assert (Hd : 1023 < Zpos (digits2_pos mx)).
  { apply bits_gt; [lia |].
    eapply Z.le_trans; [| exact Hge]. now apply Z.leb_le. }
  destruct (round_big sx mx ltac:(lia)) as (m'' & e'' & -> & He & Hiff).
  assert (He'' : 971 < e'').
  { destruct (Z.eq_dec (Zpos (digits2_pos mx)) 1024) as [Hd' | Hd']; [| lia].
    assert (Hup : e'' = Zpos (digits2_pos mx) - 52); [| lia].
    apply Hiff. rewrite Hd'. change (1024 - 54) with 970.
    rewrite overflow_threshold in Hge.
    apply Z.div_le_lower_bound; [reflexivity | exact Hge]. }
  destruct (Z.leb_spec e'' 971); [lia | reflexivity].
Qed.

Lemma integer_Number_finite neg n :
  Z.of_N n < 2 ^ 1024 - 2 ^ 970 -> integral (decimal_to_Number neg n 0) = true.
Proof.
  destruct n as [| m]; [reflexivity |]. intros Hlt.
  unfold decimal_to_Number. cbn [Z.leb Z.compare Z.pow]. rewrite Z.mul_1_r.
  destruct neg; cbn [cond_Zopp Z.opp binary_normalize]; now apply round_finite.
Qed.

Lemma integer_Number_overflow neg n :
  2 ^ 1024 - 2 ^ 970 <= Z.of_N n ->
  decimal_to_Number neg n 0 = S754_infinity neg.
Proof.
  destruct n as [| m].
  - intros H. exfalso. revert H. apply Z.lt_nge. reflexivity.
  - intros Hge.
    unfold decimal_to_Number. cbn [Z.leb Z.compare Z.pow]. rewrite Z.mul_1_r.
    destruct neg; cbn [cond_Zopp Z.opp binary_normalize]; now apply round_overflow.
Qed.

(** X5. Printing an integer in decimal and parsing it gives the integer
    back as a BigInt, for every integer of magnitude below
    [2^1024 - 2^970] (the numbers that do not round to Infinity). *)
Theorem parseJSON_integer_round_trip (z : Z) :
  Z.abs z < 2 ^ 1024 - 2 ^ 970 ->
  parseJSON (ToString_Z z) = Returned (JBigInt z).
Proof.
  intros Hz. rewrite parseJSON_numeral. cbv zeta.
  rewrite integer_Number_finite; [reflexivity |].
  now rewrite N2Z.inj_abs_N.
Qed.

(** X6. An integer of magnitude [2^1024 - 2^970] or more is not parsed to
    a BigInt: [parseJSON] returns the Number Infinity, with the integer's
    sign. *)
Theorem parseJSON_integer_overflow (z : Z) :
  2 ^ 1024 - 2 ^ 970 <= Z.abs z ->
  parseJSON (ToString_Z z) = Returned (JNumber (S754_infinity (z <? 0))).
Proof.
  intros Hz. rewrite parseJSON_numeral. cbv zeta.
  rewrite integer_Number_overflow; [reflexivity |].
  now rewrite N2Z.inj_abs_N.
Qed.

End Rounding.

(** ** Calls in sequence, and what a failure tells *)





Section Sequences.

Variable Net : Type.
Variable transport : URLOrString -> option RequestInit -> Net -> Outcome Response * Net.

(** X7. A configuration object whose [method] can be assigned, passed to
    [post] and then to [get], makes the later request carry the method POST
    as well: [get] sends the object as [post] left it. *)
Theorem post_then_get_sends_POST url1 url2 options o w :
  heap w !! options = Some o ->
  assignable (js "method") o = true ->
  sent (snd (get Net transport url2 (Some options)
               (snd (post Net transport url1 options w)))) =
    sent w ++ [(url1, Some (with_POST o)); (url2, Some (with_POST o))]
  /\ fields (with_POST o) !! js "method" = Some (JString (js "POST")).
Proof.
  intros Ho Hassign. split; [| apply lookup_insert_eq].
  rewrite get_unfold. cbv zeta.
  assert (Hw1 : heap (snd (post Net transport url1 options w)) =
                  <[options := with_POST o]> (heap w)
                /\ sent (snd (post Net transport url1 options w)) =
                     sent w ++ [(url1, Some (with_POST o))]).
  { rewrite (post_unfold _ _ _ _ _ _ Ho Hassign). cbv zeta.
    destruct (fst (transport url1 (Some (with_POST o)) (net w))) as [response | e];
      [destruct (ok response) |]; now split. }
  destruct Hw1 as [Hheap Hsent].
  assert (Hconfig : config_at Net (Some options) (snd (post Net transport url1 options w))
                    = Some (with_POST o)).
  { unfold config_at. cbn [mbind option_bind]. rewrite Hheap. apply lookup_insert_eq. }
  rewrite Hconfig.
  destruct (fst (transport url2 (Some (with_POST o))
                   (net (snd (post Net transport url1 options w))))) as [response | e];
    [destruct (ok response) |]; cbn [snd sent]; rewrite Hsent, <- app_assoc; reflexivity.
Qed.

(** X8. [get] and [post] write nothing to the error log, however they
    complete: a failure is thrown, not logged. *)
Theorem get_post_log_nothing url options_get options_post w :
  console (snd (get Net transport url options_get w)) = console w
  /\ console (snd (post Net transport url options_post w)) = console w.
Proof.
  split.
  - rewrite get_unfold. cbv zeta.
    destruct (fst (transport url (config_at Net options_get w) (net w))) as [response | e];
      [destruct (ok response) |]; reflexivity.
  - destruct (assignable_or_refused Net options_post w) as [(o & Ho & Hassign) | Hrefused].
    + rewrite (post_unfold _ _ _ _ _ _ Ho Hassign). cbv zeta.
      destruct (fst (transport url (Some (with_POST o)) (net w))) as [response | e];
        [destruct (ok response) |]; reflexivity.
    + now rewrite (post_refused _ _ _ _ _ Hrefused).
Qed.

(** X9. A response [get] or [post] returns has a status in the success
    range 200-299 and is the very response the transport answered with:
    neither returns a response of its own making or one that failed. When
    [post] returns, the [method] of its configuration object could be
    assigned and the transport answered the object so written. *)
Theorem get_post_return_successes url options_get options_post w response :
  (fst (get Net transport url options_get w) = Returned response ->
   200 <= status response <= 299
   /\ fst (transport url (config_at Net options_get w) (net w)) = Returned response)
  /\ (fst (post Net transport url options_post w) = Returned response ->
      200 <= status response <= 299
      /\ exists o,
           heap w !! options_post = Some o
           /\ assignable (js "method") o = true
           /\ fst (transport url (Some (with_POST o)) (net w)) = Returned response).
Proof.
  split.
  - rewrite get_unfold. cbv zeta.
    destruct (fst (transport url (config_at Net options_get w) (net w))) as [r | e];
      [destruct (ok r) eqn:Hok |]; cbn [fst]; intros [= <-].
    split; [now apply ok_range | reflexivity].
  - destruct (assignable_or_refused Net options_post w) as [(o & Ho & Hassign) | Hrefused].
    + rewrite (post_unfold _ _ _ _ _ _ Ho Hassign). cbv zeta.
      destruct (fst (transport url (Some (with_POST o)) (net w))) as [r | e] eqn:Hr;
        [destruct (ok r) eqn:Hok |]; cbn [fst]; intros [= <-].
      split; [now apply ok_range | exists o; now repeat split].
    + rewrite (post_refused _ _ _ _ _ Hrefused). discriminate.
Qed.


End Sequences.

(** ** The further properties on the sample inputs *)

Lemma parseJSON_closed_form_witness :
  parseJSON_within 3 doc_mixed =
  if integers_plain doc_mixed_record then Returned (revived_value doc_mixed_record)
  else Thrown SyntaxError.
Proof.
  apply (parseJSON_closed_form 3 doc_mixed doc_mixed_record).
  - apply ParseJSON_correct. vm_compute. reflexivity.
  - vm_compute. lia.
Defined.

(** Of two members with the same key the later one is the value's: the
    fraction of the first does not make [parseJSON] throw. *)
Example parseJSON_shadowed_member :
  parseJSON_within 2 doc_shadowed = Returned (JObject [(js "a", JBigInt 2)])
  /\ JSON_parse doc_shadowed None =
     Returned (JObject [(js "a", JNumber (JSONNumber_value (js "2")))]).
Proof. split; vm_compute; reflexivity. Qed.

(** Three nested arrays with room for two activations, and for three. *)
Example parseJSON_nested :
  parseJSON_within 2 doc_nested = Thrown RangeError
  /\ parseJSON_within 3 doc_nested = Returned (JArray [JArray [JArray []]]).
Proof. split; vm_compute; reflexivity. Qed.

Example parseJSON_mixed :
  parseJSON doc_mixed = Returned doc_mixed_value
  /\ JSON_parse doc_mixed None = Returned (record_value doc_mixed_record).
Proof. split; vm_compute; reflexivity. Qed.

Lemma parseJSON_no_integral_Number_witness :
  no_integral_Number doc_mixed_value = true.
Proof.
  apply (parseJSON_no_integral_Number doc_mixed doc_mixed_value).
  vm_compute. reflexivity.
Defined.

Lemma parseJSON_mirrors_JSON_parse_witness :
  Mirrors (record_value doc_mixed_record) doc_mixed_value.
Proof.
  apply (parseJSON_mirrors_JSON_parse doc_mixed).
  - vm_compute. reflexivity.
  - vm_compute. reflexivity.
Defined.

Lemma parseJSON_integer_round_trip_witness :
  (Z.abs 9007199254740993 < 2 ^ 1024 - 2 ^ 970)%Z
  /\ parseJSON (ToString_Z 9007199254740993) = Returned (JBigInt 9007199254740993).
Proof.
  split; [reflexivity |].
  apply (parseJSON_integer_round_trip 9007199254740993). reflexivity.
Defined.

Lemma parseJSON_integer_overflow_witness :
  parseJSON (ToString_Z (- 2 ^ 1024)) = Returned (JNumber (S754_infinity true)).
Proof.
  apply (parseJSON_integer_overflow (- 2 ^ 1024)).
  apply Z.leb_le. vm_compute. reflexivity.
Defined.

(** The largest integer that is still read as a BigInt, and the next one. *)
Example parseJSON_at_the_threshold :
  parseJSON (ToString_Z (2 ^ 1024 - 2 ^ 970 - 1)) =
    Returned (JBigInt (2 ^ 1024 - 2 ^ 970 - 1))
  /\ parseJSON (ToString_Z (2 ^ 1024 - 2 ^ 970)) =
       Returned (JNumber (S754_infinity false)).
Proof. split; vm_compute; reflexivity. Qed.

Lemma post_then_get_sends_POST_witness :
  sent (snd (get nat (answering 200) sample_url (Some 1%positive)
               (snd (post nat (answering 200) sample_url 1%positive sample_world)))) =
    sent sample_world
      ++ [(sample_url, Some (with_POST sample_config));
          (sample_url, Some (with_POST sample_config))]
  /\ fields (with_POST sample_config) !! js "method" = Some (JString (js "POST")).
Proof.
  apply (post_then_get_sends_POST nat (answering 200) sample_url sample_url 1%positive
           sample_config sample_world).
  - vm_compute. reflexivity.
  - vm_compute. reflexivity.
Defined.

(** After a [post] that a frozen configuration object made throw, a [get]
    with the same object sends it with the method it had. *)
Example refused_post_then_get :
  sent (snd (get nat (answering 200) sample_url (Some 1%positive)
               (snd (post nat (answering 200) sample_url 1%positive frozen_world)))) =
    [(sample_url, Some frozen_config)]
  /\ fields frozen_config !! js "method" = Some (JString (js "GET")).
Proof. split; vm_compute; reflexivity. Qed.

Lemma get_post_return_successes_witness :
  (200 <= status success <= 299
   /\ fst (answering 200 sample_url (config_at nat None empty_world) (net empty_world))
      = Returned success)
  /\ (200 <= status success <= 299
      /\ exists o,
           heap sample_world !! 1%positive = Some o
           /\ assignable (js "method") o = true
           /\ fst (answering 200 sample_url (Some (with_POST o)) (net sample_world))
              = Returned success).
Proof.
  split.
  - apply (proj1 (get_post_return_successes nat (answering 200) sample_url None
                    1%positive empty_world success)).
    reflexivity.
  - apply (proj2 (get_post_return_successes nat (answering 200) sample_url None
                    1%positive sample_world success)).
    vm_compute. reflexivity.
Defined.

